(** * Cirq: the circuit graph model of [cirq/core.py]

    A shallow embedding of the object graph of [cirq/core.py] (domains, ports,
    connections, component types and instances, circuits) and of the
    operations on it: [Domain.valid_connection], [Circuit.connect],
    [Connection.remove], the [source]/[target] change handlers,
    [CircuitBuilder.delete_selected_component], [Circuit.get_nets] and the
    [to_jsonifiable]/[from_jsonifiable] pair.

    Python objects have identity and are mutated in place, so every class gets
    a store from references (natural numbers) to the object's current fields.
    A Python reference never dangles: the stores are total functions, and a
    reference that has not been handed out yet denotes an object with the
    trait defaults of its class (what [Port()], [Connection()], ... build). *)

From stdpp Require Import base option list functions gmap strings sorting.

Open Scope string_scope.
Open Scope list_scope.
Open Scope nat_scope.

(** ** Exceptions *)

Inductive exn := AttributeError | KeyError | ValueError.

Inductive res (A : Type) : Type :=
  | Ok (a : A)
  | Raise (e : exn).
Arguments Ok {A} a.
Arguments Raise {A} e.

#[global] Instance res_ret : MRet res := λ A a, Ok a.
#[global] Instance res_bind : MBind res := λ A B f m,
  match m with Ok a => f a | Raise e => Raise e end.

(** Attribute access through a reference that may be [None]. *)
Definition attr {A} (o : option A) : res A :=
  match o with Some a => Ok a | None => Raise AttributeError end.

(** Subscription [d[k]] of a dict. *)
Definition getitem {K A} `{Countable K} (d : gmap K A) (k : K) : res A :=
  match d !! k with Some a => Ok a | None => Raise KeyError end.

(** ** Objects *)

(** [Enum(("in", "out", "inout"))] *)
Inductive Direction := Din | Dout | Dinout.

#[global] Instance Direction_eq_dec : EqDecision Direction.
Proof. solve_decision. Defined.

(** A [ComponentType] object, or an object of its subclass [Circuit]. *)
Inductive TypeRef := CT (t : nat) | CK (k : nat).

(** A [HasPorts] object: a component type (or circuit) or a component
    instance. *)
Inductive OwnerRef := OT (r : TypeRef) | OI (i : nat).

(** Any object, for the places where the code holds or compares objects of
    several classes ([selected_element], the operator [in]). *)
Inductive Obj :=
  | OPort (p : nat)
  | OConn (c : nat)
  | OOwner (o : OwnerRef).

#[global] Instance TypeRef_eq_dec : EqDecision TypeRef.
Proof. solve_decision. Defined.
#[global] Instance OwnerRef_eq_dec : EqDecision OwnerRef.
Proof. solve_decision. Defined.
#[global] Instance Obj_eq_dec : EqDecision Obj.
Proof. solve_decision. Defined.

Module Domain.
Record t := mk { name : string; causal : bool; one2one : bool }.
Definition default : t := mk "wire" false false.
End Domain.

Module Port.
Record t := mk {
  name : string;
  domain : option nat;
  direction : option Direction;
  parent : option OwnerRef;
  connections_in : list nat;
  connections_out : list nat }.
Definition default : t := mk "n" None None None [] [].
Definition with_connections_in (l : list nat) (p : t) : t :=
  mk (name p) (domain p) (direction p) (parent p) l (connections_out p).
Definition with_connections_out (l : list nat) (p : t) : t :=
  mk (name p) (domain p) (direction p) (parent p) (connections_in p) l.
Definition with_parent (o : option OwnerRef) (p : t) : t :=
  mk (name p) (domain p) (direction p) o (connections_in p) (connections_out p).
Definition with_direction (d : option Direction) (p : t) : t :=
  mk (name p) (domain p) d (parent p) (connections_in p) (connections_out p).
Definition with_domain (d : option nat) (p : t) : t :=
  mk (name p) d (direction p) (parent p) (connections_in p) (connections_out p).
Definition with_name (n : string) (p : t) : t :=
  mk n (domain p) (direction p) (parent p) (connections_in p) (connections_out p).
End Port.

Module Connection.
Record t := mk {
  source : option nat;
  target : option nat;
  circuit : option nat }.
Definition default : t := mk None None None.
Definition with_source (s : option nat) (c : t) : t := mk s (target c) (circuit c).
Definition with_target (s : option nat) (c : t) : t := mk (source c) s (circuit c).
Definition with_circuit (k : option nat) (c : t) : t := mk (source c) (target c) k.
End Connection.

Module ComponentType.
Record t := mk { name : string; ports : list nat }.
Definition default : t := mk "ct" [].
End ComponentType.

Module ComponentInstance.
Record t := mk {
  name : string;
  ctype : option TypeRef;
  ports : list nat;
  circuit : option nat }.
Definition default : t := mk "ci" None [] None.
Definition with_circuit (k : option nat) (c : t) : t := mk (name c) (ctype c) (ports c) k.
End ComponentInstance.

Module Circuit.
Record t := mk {
  name : string;
  ports : list nat;
  component_instances : list nat;
  connections : list nat;
  selected_element : option Obj }.
Definition default : t := mk "C" [] [] [] None.
Definition with_connections (l : list nat) (c : t) : t :=
  mk (name c) (ports c) (component_instances c) l (selected_element c).
Definition with_component_instances (l : list nat) (c : t) : t :=
  mk (name c) (ports c) l (connections c) (selected_element c).
Definition with_selected_element (e : option Obj) (c : t) : t :=
  mk (name c) (ports c) (component_instances c) (connections c) e.
Definition with_ports (l : list nat) (c : t) : t :=
  mk (name c) l (component_instances c) (connections c) (selected_element c).
End Circuit.

(** ** The heap *)

Record Heap := mkHeap {
  domains : nat → Domain.t;
  ports : nat → Port.t;
  conns : nat → Connection.t;
  ctypes : nat → ComponentType.t;
  insts : nat → ComponentInstance.t;
  circuits : nat → Circuit.t;
  (** the next reference [Connection(...)] hands out *)
  next_conn : nat }.

Definition upd_port (f : Port.t → Port.t) (p : nat) (h : Heap) : Heap :=
  mkHeap (domains h) (<[p := f (ports h p)]> (ports h)) (conns h) (ctypes h)
         (insts h) (circuits h) (next_conn h).

Definition upd_conn (f : Connection.t → Connection.t) (c : nat) (h : Heap) : Heap :=
  mkHeap (domains h) (ports h) (<[c := f (conns h c)]> (conns h)) (ctypes h)
         (insts h) (circuits h) (next_conn h).

Definition upd_circuit (f : Circuit.t → Circuit.t) (k : nat) (h : Heap) : Heap :=
  mkHeap (domains h) (ports h) (conns h) (ctypes h) (insts h)
         (<[k := f (circuits h k)]> (circuits h)) (next_conn h).

Definition upd_inst (f : ComponentInstance.t → ComponentInstance.t) (i : nat) (h : Heap) : Heap :=
  mkHeap (domains h) (ports h) (conns h) (ctypes h)
         (<[i := f (insts h i)]> (insts h)) (circuits h) (next_conn h).

(** The heap in which nothing has been built yet. *)
Definition empty_heap : Heap :=
  mkHeap (λ _, Domain.default) (λ _, Port.default) (λ _, Connection.default)
         (λ _, ComponentType.default) (λ _, ComponentInstance.default)
         (λ _, Circuit.default) 0.

(** Python's [x in l] on objects that do not override [__eq__]: identity. *)
Definition py_in (x : Obj) (l : list Obj) : bool :=
  existsb (λ y, bool_decide (x = y)) l.

(** [filter(lambda c: c is not self, ll)] *)
Definition remove_self (self : nat) (ll : list nat) : list nat :=
  filter (λ c, c ≠ self) ll.

(** ** Port *)

(** [isinstance(self._parent, Circuit)] *)
Definition is_ext (h : Heap) (p : nat) : bool :=
  match Port.parent (ports h p) with
  | Some (OT (CK _)) => true
  | _ => false
  end.

Definition is_source (h : Heap) (p : nat) : bool :=
  bool_decide (Port.direction (ports h p) = Some Dout)
  || (bool_decide (Port.direction (ports h p) = Some Din) && is_ext h p).

Definition is_target (h : Heap) (p : nat) : bool :=
  bool_decide (Port.direction (ports h p) = Some Din)
  || (bool_decide (Port.direction (ports h p) = Some Dout) && is_ext h p).

(** ** Domain.valid_connection

    The result is [None] for [False] and [Some (s, t)] for the tuple. *)
Definition valid_connection (h : Heap) (p1 p2 : nat) : res (option (nat * nat)) :=
  if decide (p1 = p2) then Ok None
  else if decide (Port.domain (ports h p1) ≠ Port.domain (ports h p2)) then Ok None
  else
    d ← attr (Port.domain (ports h p1));
    if Domain.causal (domains h d) then
      let p1t := is_target h p1 in
      let p1s := is_source h p1 in
      let p2t := is_target h p2 in
      let p2s := is_source h p2 in
      if p1s && p2t then
        if py_in (OPort p2) (OConn <$> Port.connections_out (ports h p1)) then Ok None
        else if Domain.one2one (domains h d)
                && bool_decide (0 < length (Port.connections_out (ports h p1))
                                    + length (Port.connections_in (ports h p1)))
        then Ok None
        else Ok (Some (p1, p2))
      else if p2s && p1t then
        if py_in (OPort p2) (OConn <$> Port.connections_in (ports h p1)) then Ok None
        else if Domain.one2one (domains h d)
                && bool_decide (0 < length (Port.connections_in (ports h p1))
                                    + length (Port.connections_out (ports h p2)))
        then Ok None
        else Ok (Some (p2, p1))
      else Ok None
    else
      if py_in (OPort p1) (OConn <$> Port.connections_in (ports h p2))
         || py_in (OPort p1) (OConn <$> Port.connections_out (ports h p2))
      then Ok None
      else Ok (Some (p1, p2)).

(** ** Connection *)

(** The registration part of [_source_changed(self, _, old, new)]: the
    connection leaves the old source's [connections_out] and is appended to
    the new one's. *)
Definition source_registered (c : nat) (old : option nat) (new : nat) (h : Heap) : Heap :=
  let h1 := match old with
            | Some o => upd_port (λ P, Port.with_connections_out
                                         (remove_self c (Port.connections_out P)) P) o h
            | None => h
            end in
  upd_port (λ P, Port.with_connections_out (Port.connections_out P ++ [c]) P) new h1.

(** [_source_changed(self, _, old, new)]: after the registration the handler
    reads [new.domain._color] and [new.domain._color_selected], which raises
    [AttributeError] when the new port has no domain.  The two colours it
    copies are display state and are not stored. *)
Definition source_changed (c : nat) (old : option nat) (new : nat) (h : Heap) : res Heap :=
  let h1 := source_registered c old new h in
  _ ← attr (Port.domain (ports h1 new));
  Ok h1.

(** [_target_changed(self, _, old, new)] *)
Definition target_changed (c : nat) (old : option nat) (new : nat) (h : Heap) : Heap :=
  let h1 := match old with
            | Some o => upd_port (λ P, Port.with_connections_in
                                         (remove_self c (Port.connections_in P)) P) o h
            | None => h
            end in
  upd_port (λ P, Port.with_connections_in (Port.connections_in P ++ [c]) P) new h1.

(** [c.source = p]: the trait is written and, when the value changed, the
    handler runs with the old and the new value. *)
Definition set_source (c p : nat) (h : Heap) : res Heap :=
  let old := Connection.source (conns h c) in
  if decide (old = Some p) then Ok h
  else source_changed c old p (upd_conn (Connection.with_source (Some p)) c h).

(** The heap [c.source = p] leaves behind, whether the handler returns or
    raises at its last two lines: the trait is written and the registration
    is done before the colours are read. *)
Definition assigned_source (c p : nat) (h : Heap) : Heap :=
  let old := Connection.source (conns h c) in
  if decide (old = Some p) then h
  else source_registered c old p (upd_conn (Connection.with_source (Some p)) c h).

(** [c.target = p] *)
Definition set_target (c p : nat) (h : Heap) : Heap :=
  let old := Connection.target (conns h c) in
  if decide (old = Some p) then h
  else target_changed c old p (upd_conn (Connection.with_target (Some p)) c h).

(** [Connection(source=s, target=t)]: a new object with the trait defaults,
    then the two keyword arguments are assigned.  The constructor raises when
    the assignment of [source] does; the order of the two assignments does
    not change the object it returns. *)
Definition new_Connection (s t : nat) (h : Heap) : res (nat * Heap) :=
  let c := next_conn h in
  let h0 := mkHeap (domains h) (ports h) (<[c := Connection.default]> (conns h))
                   (ctypes h) (insts h) (circuits h) (S c) in
  h1 ← set_source c s h0;
  Ok (c, set_target c t h1).

(** The object and the heap [Connection(source=s, target=t)] returns when it
    returns. *)
Definition built_Connection (s t : nat) (h : Heap) : nat * Heap :=
  let c := next_conn h in
  let h0 := mkHeap (domains h) (ports h) (<[c := Connection.default]> (conns h))
                   (ctypes h) (insts h) (circuits h) (S c) in
  (c, set_target c t (assigned_source c s h0)).

(** [circuit.connections = new], with [_connections_changed]: every
    connection of [new] that was not in the old list ([for ct in snew - sold])
    gets its [_circuit]; [stamp] is that loop. *)
Definition stamp (k : nat) (l : list nat) (h : Heap) : Heap :=
  foldr (λ ct, upd_conn (Connection.with_circuit (Some k)) ct) h l.

Definition set_connections (k : nat) (new : list nat) (h : Heap) : Heap :=
  let old := Circuit.connections (circuits h k) in
  let h1 := upd_circuit (Circuit.with_connections new) k h in
  stamp k (list_difference new old) h1.

(** [Connection.remove] *)
Definition remove (c : nat) (h : Heap) : res Heap :=
  k ← attr (Connection.circuit (conns h c));
  let h1 := set_connections k (remove_self c (Circuit.connections (circuits h k))) h in
  s ← attr (Connection.source (conns h1 c));
  let h2 := upd_port (λ P, Port.with_connections_out
                             (remove_self c (Port.connections_out P)) P) s h1 in
  t ← attr (Connection.target (conns h2 c));
  Ok (upd_port (λ P, Port.with_connections_in
                       (remove_self c (Port.connections_in P)) P) t h2).

(** ** Circuit.connect *)

(** Truth value of what [valid_connection] returns: [False], or a pair. *)
Definition truthy {A} (r : option A) : bool :=
  match r with Some _ => true | None => false end.

Definition connect (k p1 p2 : nat) (verify : bool) (h : Heap) : res Heap :=
  reject ← (if verify then r ← valid_connection h p1 p2; Ok (negb (truthy r))
            else Ok false);
  if (reject : bool) then Ok h
  else
    d ← attr (Port.domain (ports h p1));
    let '(p1, p2) := if Domain.causal (domains h d) && negb (is_source h p1)
                     then (p2, p1) else (p1, p2) in
    '(new_connection, h1) ← new_Connection p1 p2 h;
    Ok (set_connections k (Circuit.connections (circuits h1 k) ++ [new_connection]) h1).

(** ** Circuit.get_nets *)

(** [for a in l: s = body(s, a)], stopping at the first exception. *)
Fixpoint for_each {A S : Type} (body : S → A → res S) (s : S) (l : list A) : res S :=
  match l with
  | [] => Ok s
  | a :: l => s' ← body s a; for_each body s' l
  end.

(** [HasPorts.ports_for_domain], on the port list of the owner. *)
Definition ports_for_domain (h : Heap) (domain : nat) (ps : list nat) : list nat :=
  filter (λ p, Port.domain (ports h p) = Some domain) ps.

(** The ports of the circuit, then those of its instances, for [domain]. *)
Definition all_ports (h : Heap) (k domain : nat) : list nat :=
  ports_for_domain h domain (Circuit.ports (circuits h k))
  ++ concat ((λ c, ports_for_domain h domain (ComponentInstance.ports (insts h c)))
               <$> Circuit.component_instances (circuits h k)).

(** [{p: (kk, {p}) for kk, p in enumerate(all_ports)}]: a later entry for
    the same port replaces an earlier one. *)
Definition init_nets (l : list nat) : gmap nat (nat * gset nat) :=
  foldl (λ nets '(kk, p), <[p := (kk, {[p]})]> nets) ∅ (imap pair l).

(** The body of the loop over the connections; the state is the pair of
    the dicts [nets] and [nets_by_nk]. *)
Definition nets_step (h : Heap) (domain : nat)
    (st : gmap nat (nat * gset nat) * gmap nat (gset nat)) (c : nat)
    : res (gmap nat (nat * gset nat) * gmap nat (gset nat)) :=
  let '(nets, nets_by_nk) := st in
  s ← attr (Connection.source (conns h c));
  if decide (Port.domain (ports h s) ≠ Some domain) then Ok st
  else
    t ← attr (Connection.target (conns h c));
    if decide (Port.domain (ports h t) ≠ Some domain) then Ok st
    else
      '(ns, pss) ← getitem nets s;
      '(nt, pts) ← getitem nets t;
      let mn := ns `min` nt in
      let ma := ns `max` nt in
      let clique := pss ∪ pts in
      let nets := set_fold (λ pp nets, <[pp := (mn, clique)]> nets) nets clique in
      let nets_by_nk := <[mn := clique]> nets_by_nk in
      if bool_decide (ns ≠ nt) && bool_decide (is_Some (nets_by_nk !! ma))
      then Ok (nets, delete ma nets_by_nk)
      else Ok (nets, nets_by_nk).

(** The order of the keys [nets_index.get] returns: [None] (a port that is
    not in the dict) sorts before every index. *)
Definition key_le (a b : option nat) : Prop :=
  match a, b with
  | None, _ => True
  | Some _, None => False
  | Some x, Some y => x ≤ y
  end.

#[global] Instance key_le_dec a b : Decision (key_le a b).
Proof. destruct a, b; simpl; apply _. Defined.

Definition get_nets (h : Heap) (k domain : nat) : res (list (list nat)) :=
  let nets := init_nets (all_ports h k domain) in
  let nets_index := fst <$> nets in
  '(_, nets_by_nk) ← for_each (nets_step h domain) (nets, ∅)
                               (Circuit.connections (circuits h k));
  Ok ((λ kk, merge_sort (λ p q, key_le (nets_index !! p) (nets_index !! q))
                        (elements (nets_by_nk !!! kk)))
        <$> merge_sort (≤) (elements (dom nets_by_nk))).

(** [nets_index = {p: kk for p, (kk, _) in nets.items()}], taken before
    the loop: the index of each enumerated port. *)
Definition nets_index (h : Heap) (k domain : nat) : gmap nat nat :=
  fst <$> init_nets (all_ports h k domain).

(** The connections of [l] that the loop of [get_nets] does not skip join
    their source [s] to their target [t]: both ends are in [domain]. *)
Definition joined_by (h : Heap) (domain : nat) (l : list nat) (s t : nat) : Prop :=
  ∃ c, c ∈ l
    ∧ Connection.source (conns h c) = Some s
    ∧ Connection.target (conns h c) = Some t
    ∧ Port.domain (ports h s) = Some domain
    ∧ Port.domain (ports h t) = Some domain.

(** [s] and [t] are the ends of a connection of circuit [k] in [domain]. *)
Definition joins (h : Heap) (k domain : nat) : relation nat :=
  joined_by h domain (Circuit.connections (circuits h k)).

(** Two ports are linked when a chain of such connections, followed in
    either direction, leads from one to the other. *)
Definition linked (h : Heap) (k domain : nat) : relation nat :=
  rtsc (joins h k domain).

(** [p] is an end of a connection of circuit [k] that has both ends in
    [domain]. *)
Definition wired (h : Heap) (k domain p : nat) : Prop :=
  ∃ c s t,
    c ∈ Circuit.connections (circuits h k)
    ∧ Connection.source (conns h c) = Some s
    ∧ Connection.target (conns h c) = Some t
    ∧ Port.domain (ports h s) = Some domain
    ∧ Port.domain (ports h t) = Some domain
    ∧ (p = s ∨ p = t).

(** The ends of connection [c], when both are in [domain], are among the
    ports [get_nets] enumerates for circuit [k]: the keys of [nets]. *)
Definition ends_enumerated (h : Heap) (k domain c : nat) : Prop :=
  match Connection.source (conns h c), Connection.target (conns h c) with
  | Some s, Some t =>
      Port.domain (ports h s) = Some domain → Port.domain (ports h t) = Some domain →
      s ∈ all_ports h k domain ∧ t ∈ all_ports h k domain
  | _, _ => True
  end.

#[global] Instance ends_enumerated_dec h k domain c :
  Decision (ends_enumerated h k domain c).
Proof.
  unfold ends_enumerated.
  destruct (Connection.source (conns h c)), (Connection.target (conns h c)); apply _.
Defined.

(** Loop invariant of [get_nets], for the relation [E] of the connections
    joined so far.  [nets] maps every port to the key and the members of its
    clique: a port is in its own clique, the members of a clique share one
    entry, and a key stands for one clique.  [nets_by_nk] holds, under its
    key, every clique a connection has touched, and nothing else; its cliques
    consist of ends of connections.  The members of a clique are linked by
    the connections joined so far. *)
Record nets_ok (E : relation nat)
    (st : gmap nat (nat * gset nat) * gmap nat (gset nat)) : Prop := mk_nets_ok {
  ok_self : ∀ p kk (S : gset nat), st.1 !! p = Some (kk, S) → p ∈ S;
  ok_agree : ∀ p q kk (S : gset nat),
    st.1 !! p = Some (kk, S) → q ∈ S → st.1 !! q = Some (kk, S);
  ok_key : ∀ p q kk (S S' : gset nat),
    st.1 !! p = Some (kk, S) → st.1 !! q = Some (kk, S') → S = S';
  ok_by : ∀ kk (S : gset nat),
    st.2 !! kk = Some S → ∃ p, st.1 !! p = Some (kk, S);
  ok_edge : ∀ s t, E s t →
    ∃ kk (S : gset nat), st.1 !! s = Some (kk, S) ∧ t ∈ S ∧ st.2 !! kk = Some S;
  ok_linked : ∀ p q kk (S : gset nat),
    st.1 !! p = Some (kk, S) → q ∈ S → rtsc E p q;
  ok_ends : ∀ p kk (S : gset nat),
    st.1 !! p = Some (kk, S) → ∀ x, x ∈ S → x = p ∨ ∃ y, sc E x y;
  ok_ends_by : ∀ kk (S : gset nat),
    st.2 !! kk = Some S → ∀ x, x ∈ S → ∃ y, sc E x y
}.

(** ** CircuitBuilder.delete_selected_component *)

(** [circuit.component_instances = new], with
    [_component_instances_changed]: the names must be pairwise distinct
    ([len(self.c) == len(new)], where [self.c] is the dict of the instances
    by name), and every instance of the list gets its [_circuit].  The layout
    coordinates the handler computes are display state and are not modelled,
    nor is the derived dict [c], which none of the operations below reads. *)
Definition adopt (k : nat) (l : list nat) (h : Heap) : Heap :=
  foldl (λ h ci, upd_inst (ComponentInstance.with_circuit (Some k)) ci h) h l.

Definition set_component_instances (k : nat) (new : list nat) (h : Heap) : res Heap :=
  let h1 := upd_circuit (Circuit.with_component_instances new) k h in
  if bool_decide (NoDup ((λ ci, ComponentInstance.name (insts h1 ci)) <$> new)) then
    Ok (adopt k new h1)
  else Raise ValueError.

(** [for cc in ccs: cc.remove()] *)
Fixpoint remove_each (ccs : list nat) (h : Heap) : res Heap :=
  match ccs with
  | [] => Ok h
  | cc :: ccs => h1 ← remove cc h; remove_each ccs h1
  end.

(** [for p in ps: for cc in p.connections_in + p.connections_out: cc.remove()];
    the concatenated list is built once, when the inner loop starts. *)
Fixpoint remove_port_connections (ps : list nat) (h : Heap) : res Heap :=
  match ps with
  | [] => Ok h
  | p :: ps =>
      h1 ← remove_each (Port.connections_in (ports h p)
                        ++ Port.connections_out (ports h p)) h;
      remove_port_connections ps h1
  end.

(** The heaps after each of the three statements that follow the guard of
    [delete_selected_component], in the order of the source: the assignment
    of the filtered instance list, the loops that remove the connections,
    the reset of the selection.  The list is empty when the guard returns. *)
Definition delete_selected_component_states (k : nat) (h : Heap) : res (list Heap) :=
  match Circuit.selected_element (circuits h k) with
  | Some (OOwner (OI c)) =>
      if negb (bool_decide (c ∈ Circuit.component_instances (circuits h k)))
      then Ok []
      else
        h1 ← set_component_instances k
               (filter (λ comp, comp ≠ c) (Circuit.component_instances (circuits h k))) h;
        h2 ← remove_port_connections (ComponentInstance.ports (insts h1 c)) h1;
        let h3 := upd_circuit (Circuit.with_selected_element None) k h2 in
        Ok [h1; h2; h3]
  | _ => Ok []
  end.

(** The heap [delete_selected_component] leaves. *)
Definition delete_selected_component (k : nat) (h : Heap) : res Heap :=
  states ← delete_selected_component_states k h;
  Ok (default h (last states)).

(** ** States of the connection bookkeeping *)

(** How often a connection occurs in a list. *)
Definition occ (c : nat) (l : list nat) : nat := length (filter (λ x, x = c) l).

(** No connection has been created yet. *)
Definition unconnected (h : Heap) : Prop :=
  next_conn h = 0
  ∧ (∀ p, Port.connections_in (ports h p) = [] ∧ Port.connections_out (ports h p) = [])
  ∧ (∀ k, Circuit.connections (circuits h k) = []).

(** The heaps the public operations on connections lead to: [connect] on
    any circuit and ports, assignment to [source] and [target] of a
    connection that [connect] made, and [remove].  An assignment to [source]
    leaves [assigned_source] behind also when its handler raises, so that
    heap is reachable either way. *)
Inductive reachable : Heap → Prop :=
  | reach_init h : unconnected h → reachable h
  | reach_connect h k p1 p2 verify h' :
      reachable h → connect k p1 p2 verify h = Ok h' → reachable h'
  | reach_set_source h c p :
      reachable h → c < next_conn h → reachable (assigned_source c p h)
  | reach_set_target h c p :
      reachable h → c < next_conn h → reachable (set_target c p h)
  | reach_remove h c h' :
      reachable h → c < next_conn h → remove c h = Ok h' → reachable h'.

(** The invariant of the bookkeeping. *)
Record consistent (h : Heap) : Prop := mk_consistent {
  made_out : ∀ c q, c ∈ Port.connections_out (ports h q) → c < next_conn h;
  made_in : ∀ c q, c ∈ Port.connections_in (ports h q) → c < next_conn h;
  made_circuit : ∀ c k, c ∈ Circuit.connections (circuits h k) → c < next_conn h;
  complete : ∀ c, c < next_conn h →
    ∃ s t k, conns h c = Connection.mk (Some s) (Some t) (Some k);
  out_once : ∀ c q, occ c (Port.connections_out (ports h q)) ≤ 1;
  in_once : ∀ c q, occ c (Port.connections_in (ports h q)) ≤ 1;
  out_source : ∀ c q, c ∈ Port.connections_out (ports h q) →
    Connection.source (conns h c) = Some q;
  in_target : ∀ c q, c ∈ Port.connections_in (ports h q) →
    Connection.target (conns h c) = Some q;
  live_circuit : ∀ c k, c ∈ Circuit.connections (circuits h k) →
    Connection.circuit (conns h c) = Some k;
  live_out : ∀ c k s, c ∈ Circuit.connections (circuits h k) →
    Connection.source (conns h c) = Some s → c ∈ Port.connections_out (ports h s);
  live_in : ∀ c k t, c ∈ Circuit.connections (circuits h k) →
    Connection.target (conns h c) = Some t → c ∈ Port.connections_in (ports h t) }.

(** Connection [cc] has a port of instance [i] as its source or target. *)
Definition touches (h : Heap) (i cc : nat) : Prop :=
  Exists (λ p, Connection.source (conns h cc) = Some p
               ∨ Connection.target (conns h cc) = Some p)
         (ComponentInstance.ports (insts h i)).

#[global] Instance touches_dec h i cc : Decision (touches h i cc).
Proof. unfold touches. apply _. Defined.

(** [h'] is [h] with the connections of [X] taken out of every list. *)
Record purged (X : list nat) (h h' : Heap) : Prop := mk_purged {
  purged_out : ∀ q, Port.connections_out (ports h' q) =
                    filter (λ x, x ∉ X) (Port.connections_out (ports h q));
  purged_in : ∀ q, Port.connections_in (ports h' q) =
                   filter (λ x, x ∉ X) (Port.connections_in (ports h q));
  purged_circuit : ∀ k, Circuit.connections (circuits h' k) =
                        filter (λ x, x ∉ X) (Circuit.connections (circuits h k));
  purged_conns : ∀ c, conns h' c = conns h c;
  purged_next : next_conn h' = next_conn h;
  purged_port : ∀ q, Port.name (ports h' q) = Port.name (ports h q)
                     ∧ Port.domain (ports h' q) = Port.domain (ports h q)
                     ∧ Port.direction (ports h' q) = Port.direction (ports h q)
                     ∧ Port.parent (ports h' q) = Port.parent (ports h q);
  purged_circuit_rest : ∀ k, Circuit.name (circuits h' k) = Circuit.name (circuits h k)
                     ∧ Circuit.ports (circuits h' k) = Circuit.ports (circuits h k)
                     ∧ Circuit.component_instances (circuits h' k) =
                         Circuit.component_instances (circuits h k)
                     ∧ Circuit.selected_element (circuits h' k) =
                         Circuit.selected_element (circuits h k);
  purged_insts : ∀ i, insts h' i = insts h i;
  purged_domains : ∀ d, domains h' d = domains h d;
  purged_ctypes : ∀ t, ctypes h' t = ctypes h t }.

(** ** Messages from the front end *)

(** What a front-end element sends: ["click"], the dict with a captured
    SVG, or anything else.  The snapshots and their callbacks are display
    state and are not part of the heap. *)
Inductive Msg := Click | CapturedSvg | OtherMsg.

(** [circuit.selected_element = e] *)
Definition select (k : nat) (e : option Obj) (h : Heap) : Heap :=
  upd_circuit (Circuit.with_selected_element e) k h.

(** [Circuit.port_msg]; any selected object is true, [None] is false. *)
Definition port_msg (k p : nat) (m : Msg) (h : Heap) : res Heap :=
  match m with
  | Click =>
      match Circuit.selected_element (circuits h k) with
      | Some (OPort se) =>
          if decide (p = se) then Ok (select k None h)
          else
            r ← valid_connection h se p;
            if truthy r then connect k se p true h
            else Ok (select k (Some (OPort p)) h)
      | _ => Ok (select k (Some (OPort p)) h)
      end
  | _ => Ok h
  end.

(** [Circuit.component_msg] *)
Definition component_msg (k c : nat) (m : Msg) (h : Heap) : res Heap :=
  match m with
  | Click =>
      if decide (Circuit.selected_element (circuits h k) = Some (OOwner (OI c)))
      then Ok h
      else Ok (select k (Some (OOwner (OI c))) h)
  | _ => Ok h
  end.

(** [Circuit.connection_msg]; [delete_connection(c)] is [c.remove()]. *)
Definition connection_msg (k c : nat) (m : Msg) (h : Heap) : res Heap :=
  match m with
  | Click =>
      if decide (Circuit.selected_element (circuits h k) = Some (OConn c))
      then h1 ← remove c h; Ok (select k None h1)
      else Ok (select k (Some (OConn c)) h)
  | _ => Ok h
  end.

(** [Circuit.msg] *)
Definition msg (k : nat) (m : Msg) (h : Heap) : res Heap :=
  match m with
  | Click =>
      match Circuit.selected_element (circuits h k) with
      | Some _ => Ok (select k None h)
      | None => Ok h
      end
  | _ => Ok h
  end.

(** [Circuit.handle_element_msg]: dispatch on the class of the element. *)
Definition handle_element_msg (k : nat) (element : Obj) (m : Msg) (h : Heap) : res Heap :=
  match element with
  | OPort p => port_msg k p m h
  | OOwner (OI c) => component_msg k c m h
  | OConn c => connection_msg k c m h
  | OOwner (OT (CK k')) => if decide (k' = k) then msg k m h else Ok h
  | OOwner (OT (CT _)) => Ok h
  end.

(** ** CircuitBuilder: the external ports *)

(** [circuit.ports = new].  The trait handlers run when the value changed:
    [HasPorts._ports_changed] makes the circuit the parent of every port of
    the list and requires pairwise distinct names ([len(self.p) == len(new)],
    where [self.p] is the dict of the ports by name).  The coordinates the
    handlers compute are display state. *)
Definition set_circuit_ports (k : nat) (new : list nat) (h : Heap) : res Heap :=
  if decide (new = Circuit.ports (circuits h k)) then Ok h
  else
    let h1 := upd_circuit (Circuit.with_ports new) k h in
    let h2 := foldl (λ h p, upd_port (Port.with_parent (Some (OT (CK k)))) p h) h1 new in
    if bool_decide (NoDup ((λ p, Port.name (ports h2 p)) <$> new)) then Ok h2
    else Raise ValueError.

(** [CircuitBuilder.delete_selected_port] on the builder's circuit [k]. *)
Definition delete_selected_port (k : nat) (h : Heap) : res Heap :=
  match Circuit.selected_element (circuits h k) with
  | Some (OPort p) =>
      if negb (bool_decide (p ∈ Circuit.ports (circuits h k))) then Ok h
      else
        h1 ← set_circuit_ports k (filter (λ pp, pp ≠ p) (Circuit.ports (circuits h k))) h;
        h2 ← remove_each (Port.connections_in (ports h1 p)
                          ++ Port.connections_out (ports h1 p)) h1;
        Ok (select k None h2)
  | _ => Ok h
  end.

(** [ps.index(p)]: the position of the first occurrence. *)
Fixpoint index_of (p : nat) (ps : list nat) : option nat :=
  match ps with
  | [] => None
  | q :: ps => if decide (q = p) then Some 0 else S <$> index_of p ps
  end.

(** [ps.pop(ii)] leaves [delete ii ps]; the slices [ps[:n]] and [ps[n:]] of
    a non-negative [n] are [take n ps] and [drop n ps]. *)
Definition moved_up (p : nat) (ps : list nat) : list nat :=
  match index_of p ps with
  | Some ii =>
      let ps := delete ii ps in
      let ii := 1 `max` ii in
      take (ii - 1) ps ++ [p] ++ drop (ii - 1) ps
  | None => ps
  end.

Definition moved_down (p : nat) (ps : list nat) : list nat :=
  match index_of p ps with
  | Some ii =>
      let ps := delete ii ps in
      take (ii + 1) ps ++ [p] ++ drop (ii + 1) ps
  | None => ps
  end.

(** [CircuitBuilder.move_selected_port_up] *)
Definition move_selected_port_up (k : nat) (h : Heap) : res Heap :=
  match Circuit.selected_element (circuits h k) with
  | Some (OPort p) =>
      if negb (bool_decide (p ∈ Circuit.ports (circuits h k))) then Ok h
      else set_circuit_ports k (moved_up p (Circuit.ports (circuits h k))) h
  | _ => Ok h
  end.

(** [CircuitBuilder.move_selected_port_down] *)
Definition move_selected_port_down (k : nat) (h : Heap) : res Heap :=
  match Circuit.selected_element (circuits h k) with
  | Some (OPort p) =>
      if negb (bool_decide (p ∈ Circuit.ports (circuits h k))) then Ok h
      else set_circuit_ports k (moved_down p (Circuit.ports (circuits h k))) h
  | _ => Ok h
  end.

(** ** Heaps the editor leads to *)

(** The operations a user of the editor triggers: [connect] with the
    default [verify=True], [remove], messages from the front end and the
    builder's buttons.  The front end names a connection only once [connect]
    has made it. *)
Inductive operated : Heap → Prop :=
  | op_init h : unconnected h → operated h
  | op_connect h k p1 p2 h' :
      operated h → connect k p1 p2 true h = Ok h' → operated h'
  | op_remove h c h' :
      operated h → c < next_conn h → remove c h = Ok h' → operated h'
  | op_msg h k element m h' :
      operated h →
      (∀ c, element = OConn c → c < next_conn h) →
      handle_element_msg k element m h = Ok h' → operated h'
  | op_delete_component h k h' :
      operated h → delete_selected_component k h = Ok h' → operated h'
  | op_delete_port h k h' :
      operated h → delete_selected_port k h = Ok h' → operated h'
  | op_move_up h k h' :
      operated h → move_selected_port_up k h = Ok h' → operated h'
  | op_move_down h k h' :
      operated h → move_selected_port_down k h = Ok h' → operated h'.

(** Domains and the domain and direction of every port are as in [h], and
    a port that was external still is. *)
Record static (h h' : Heap) : Prop := mk_static {
  static_domains : ∀ d, domains h' d = domains h d;
  static_domain : ∀ q, Port.domain (ports h' q) = Port.domain (ports h q);
  static_direction : ∀ q, Port.direction (ports h' q) = Port.direction (ports h q);
  static_is_ext : ∀ q, is_ext h q = true → is_ext h' q = true }.

(** The lists of [h'] are those of [h] without the connections of [X]; the
    connection objects are untouched. *)
Record wiring_purged (X : list nat) (h h' : Heap) : Prop := mk_wiring_purged {
  wp_out : ∀ q, Port.connections_out (ports h' q) =
                filter (λ x, x ∉ X) (Port.connections_out (ports h q));
  wp_in : ∀ q, Port.connections_in (ports h' q) =
               filter (λ x, x ∉ X) (Port.connections_in (ports h q));
  wp_circuit : ∀ k, Circuit.connections (circuits h' k) =
                    filter (λ x, x ∉ X) (Circuit.connections (circuits h k));
  wp_conns : ∀ c, conns h' c = conns h c;
  wp_next : next_conn h' = next_conn h }.

(** Every connection of a circuit joins two distinct ports of one domain
    and, when the domain is causal, starts at a port that is a source. *)
Definition sound (h : Heap) : Prop :=
  ∀ c k, c ∈ Circuit.connections (circuits h k) →
    ∃ s t d,
      Connection.source (conns h c) = Some s
      ∧ Connection.target (conns h c) = Some t
      ∧ s ≠ t
      ∧ Port.domain (ports h s) = Some d
      ∧ Port.domain (ports h t) = Some d
      ∧ (Domain.causal (domains h d) = true → is_source h s = true).

(** In a causal one-to-one domain a port that is not external has at most
    one outgoing connection. *)
Definition single_out (h : Heap) : Prop :=
  ∀ p d,
    is_ext h p = false →
    Port.domain (ports h p) = Some d →
    Domain.causal (domains h d) = true →
    Domain.one2one (domains h d) = true →
    length (Port.connections_out (ports h p)) ≤ 1.

(** What the editor's operations keep. *)
Definition kept (h : Heap) : Prop := consistent h ∧ sound h ∧ single_out h.


(** ** Construction

    The constructors hand out fresh references: a store is a heap together
    with the next reference of every class but [Connection], whose counter
    the heap has. *)

Record Store := mkStore {
  heap : Heap;
  next_domain : nat;
  next_port : nat;
  next_ctype : nat;
  next_inst : nat;
  next_circuit : nat }.

Definition empty_store : Store := mkStore empty_heap 0 0 0 0 0.

Definition upd_domain (f : Domain.t → Domain.t) (d : nat) (h : Heap) : Heap :=
  mkHeap (<[d := f (domains h d)]> (domains h)) (ports h) (conns h) (ctypes h)
         (insts h) (circuits h) (next_conn h).

Definition upd_ctype (f : ComponentType.t → ComponentType.t) (t : nat) (h : Heap) : Heap :=
  mkHeap (domains h) (ports h) (conns h) (<[t := f (ctypes h t)]> (ctypes h))
         (insts h) (circuits h) (next_conn h).

(** [Domain(name=.., causal=.., one2one=..)]; the class has no handlers. *)
Definition new_Domain (name : string) (causal one2one : bool) (st : Store) : nat * Store :=
  let d := next_domain st in
  (d, mkStore (upd_domain (λ _, Domain.mk name causal one2one) d (heap st))
              (S d) (next_port st) (next_ctype st) (next_inst st) (next_circuit st)).

(** [p.direction = x], with [Port._direction_changed] when the value
    changed. *)
Definition set_direction (p : nat) (x : option Direction) (h : Heap) : res Heap :=
  if decide (Port.direction (ports h p) = x) then Ok h
  else
    let h1 := upd_port (Port.with_direction x) p h in
    match Port.domain (ports h1 p) with
    | Some d =>
        if Domain.causal (domains h1 d)
           && negb (bool_decide (x = Some Din ∨ x = Some Dout))
        then Raise ValueError
        else Ok h1
    | None => Ok h1
    end.

(** [p.domain = d], with [Port._domain_changed] when the value changed. *)
Definition set_domain (p : nat) (d : option nat) (h : Heap) : res Heap :=
  if decide (Port.domain (ports h p) = d) then Ok h
  else
    let h1 := upd_port (Port.with_domain d) p h in
    new ← attr d;
    if Domain.causal (domains h1 new) then
      if decide (Port.direction (ports h1 p) = Some Dinout)
      then set_direction p (Some Din) h1
      else Ok h1
    else set_direction p (Some Dinout) h1.

(** [Port(name=.., domain=.., direction=..)].  [HasTraits.__init__] assigns
    the keyword arguments in the iteration order of the keyword dict, which
    the source does not fix; the two handlers make the result depend on
    whether [domain] comes before [direction], which [domain_first] says.
    [name] has no handler. *)
Definition new_Port (domain_first : bool) (name : string) (d : option nat)
    (x : option Direction) (st : Store) : res (nat * Store) :=
  let p := next_port st in
  let h0 := upd_port (Port.with_name name) p (heap st) in
  h1 ← (if domain_first
        then h ← set_domain p d h0; set_direction p x h
        else h ← set_direction p x h0; set_domain p d h);
  Ok (p, mkStore h1 (next_domain st) (S p) (next_ctype st) (next_inst st)
                 (next_circuit st)).

(** [HasPorts._ports_changed] of a component type or instance [o], for a
    list [new] that is not empty: the ports get [o] as their parent, and
    their names have to be pairwise distinct ([len(self.p) == len(new)]).
    The coordinates [layout_ports] computes are display state. *)
Definition ports_changed (o : OwnerRef) (new : list nat) (h : Heap) : res Heap :=
  let h1 := foldl (λ h p, upd_port (Port.with_parent (Some o)) p h) h new in
  if bool_decide (NoDup ((λ p, Port.name (ports h1 p)) <$> new)) then Ok h1
  else Raise ValueError.

(** [ComponentType(name=.., ports=..)]: the handler of [ports] runs when the
    list differs from the default, the empty list. *)
Definition new_ComponentType (name : string) (ps : list nat) (st : Store)
    : res (nat * Store) :=
  let t := next_ctype st in
  let h0 := upd_ctype (λ _, ComponentType.mk name ps) t (heap st) in
  h1 ← (if decide (ps = []) then Ok h0 else ports_changed (OT (CT t)) ps h0);
  Ok (t, mkStore h1 (next_domain st) (next_port st) (S t) (next_inst st)
                 (next_circuit st)).

(** [clone_ports(ports)], with [Port.clone] *)
Fixpoint clone_ports (domain_first : bool) (ps : list nat) (st : Store)
    : res (list nat * Store) :=
  match ps with
  | [] => Ok ([], st)
  | p :: ps =>
      '(q, st1) ← new_Port domain_first (Port.name (ports (heap st) p))
                           (Port.domain (ports (heap st) p))
                           (Port.direction (ports (heap st) p)) st;
      '(qs, st2) ← clone_ports domain_first ps st1;
      Ok (q :: qs, st2)
  end.

(** The ports of a component type, which may be a circuit. *)
Definition type_ports (h : Heap) (r : TypeRef) : list nat :=
  match r with
  | CT t => ComponentType.ports (ctypes h t)
  | CK k => Circuit.ports (circuits h k)
  end.

Definition type_name (h : Heap) (r : TypeRef) : string :=
  match r with
  | CT t => ComponentType.name (ctypes h t)
  | CK k => Circuit.name (circuits h k)
  end.

Definition owner_name (h : Heap) (o : OwnerRef) : string :=
  match o with
  | OT r => type_name h r
  | OI i => ComponentInstance.name (insts h i)
  end.

(** [ComponentType.make_instance(self, name)]: the options it passes on are
    display state. *)
Definition make_instance (domain_first : bool) (self : TypeRef) (name : string)
    (st : Store) : res (nat * Store) :=
  '(ps, st1) ← clone_ports domain_first (type_ports (heap st) self) st;
  let i := next_inst st1 in
  let h0 := upd_inst (λ _, ComponentInstance.mk name (Some self) ps None) i (heap st1) in
  h1 ← (if decide (ps = []) then Ok h0 else ports_changed (OI i) ps h0);
  Ok (i, mkStore h1 (next_domain st1) (next_port st1) (next_ctype st1) (S i)
                 (next_circuit st1)).

(** [Circuit(name=.., ports=.., component_instances=..)]: the two handlers
    touch different fields, so the order of the keyword arguments does not
    show in the result. *)
Definition new_Circuit (name : string) (ps cis : list nat) (st : Store)
    : res (nat * Store) :=
  let k := next_circuit st in
  let h0 := upd_circuit (λ c, Circuit.mk name (Circuit.ports c)
                                (Circuit.component_instances c)
                                (Circuit.connections c)
                                (Circuit.selected_element c)) k (heap st) in
  h1 ← set_circuit_ports k ps h0;
  h2 ← (if decide (cis = []) then Ok h1 else set_component_instances k cis h1);
  Ok (k, mkStore h2 (next_domain st) (next_port st) (next_ctype st) (next_inst st)
                 (S k)).

(** ** Circuit.to_jsonifiable and Circuit.from_jsonifiable *)

(** The dict [_port_info] builds. *)
Record PortInfo := mkPortInfo {
  pi_name : string;
  pi_domain : string;
  pi_direction : option Direction }.

#[global] Instance PortInfo_eq_dec : EqDecision PortInfo.
Proof. solve_decision. Defined.

(** The dict [to_jsonifiable] returns.  The values of ["domains"] are the
    pairs of ["causal"] and ["one2one"], those of ["component_types"] the
    lists under ["ports"]. *)
Record Repr := mkRepr {
  r_name : string;
  r_domains : gmap string (bool * bool);
  r_ports : list PortInfo;
  r_component_types : gmap string (list PortInfo);
  r_component_instances : gmap string string;
  r_connections : list (string * string * string * string) }.

#[global] Instance Repr_eq_dec : EqDecision Repr.
Proof. solve_decision. Defined.

Definition port_info (h : Heap) (p : nat) : res PortInfo :=
  d ← attr (Port.domain (ports h p));
  Ok (mkPortInfo (Port.name (ports h p)) (Domain.name (domains h d))
                 (Port.direction (ports h p))).

(** [map(f, l)] for an [f] that may raise *)
Fixpoint map_res {A B} (f : A → res B) (l : list A) : res (list B) :=
  match l with
  | [] => Ok []
  | a :: l => b ← f a; bs ← map_res f l; Ok (b :: bs)
  end.

(** [to_jsonifiable(self)] on circuit [k].  The two sets of the source,
    [domains] and [ctypes], hold objects and are kept here as the lists
    without repetition [domain_set] and [ctype_set]; [order] is the order in
    which a set is iterated, which Python does not fix.  A dict comprehension
    keeps the last value of a key. *)
Definition to_jsonifiable (order : ∀ A : Type, list A → list A) (h : Heap) (k : nat)
    : res Repr :=
  let self := circuits h k in
  let port_domains ps := (λ p, Port.domain (ports h p)) <$> ps in
  let domain_set :=
    foldl (λ ds c, remove_dups (ds ++ port_domains (ComponentInstance.ports (insts h c))))
          (remove_dups (port_domains (Circuit.ports self)))
          (Circuit.component_instances self) in
  let ctype_set :=
    foldl (λ cts c, remove_dups (cts ++ [ComponentInstance.ctype (insts h c)]))
          [] (Circuit.component_instances self) in
  port_list ← map_res (port_info h) (Circuit.ports self);
  domains_dict ←
    for_each (λ (m : gmap string (bool * bool)) d,
                d ← attr d;
                Ok (<[Domain.name (domains h d) :=
                        (Domain.causal (domains h d), Domain.one2one (domains h d))]> m))
             ∅ (order _ domain_set);
  ctypes_dict ←
    for_each (λ (m : gmap string (list PortInfo)) ct,
                ct ← attr ct;
                infos ← map_res (port_info h) (type_ports h ct);
                Ok (<[type_name h ct := infos]> m))
             ∅ (order _ ctype_set);
  component_instances_dict ←
    for_each (λ (m : gmap string string) c,
                ct ← attr (ComponentInstance.ctype (insts h c));
                Ok (<[ComponentInstance.name (insts h c) := type_name h ct]> m))
             ∅ (Circuit.component_instances self);
  connections ←
    map_res (λ c,
               s ← attr (Connection.source (conns h c));
               sp ← attr (Port.parent (ports h s));
               t ← attr (Connection.target (conns h c));
               tp ← attr (Port.parent (ports h t));
               Ok (owner_name h sp, Port.name (ports h s),
                   owner_name h tp, Port.name (ports h t)))
            (Circuit.connections self);
  Ok (mkRepr (Circuit.name self) domains_dict port_list ctypes_dict
             component_instances_dict connections).

(** [{p.name: p for p in ps}] *)
Definition ports_by_name (h : Heap) (ps : list nat) : gmap string nat :=
  foldl (λ m p, <[Port.name (ports h p) := p]> m) ∅ ps.

(** [map(_make_port, infos)] of [from_jsonifiable] *)
Definition make_ports (domain_first : bool) (domains : gmap string nat)
    (infos : list PortInfo) (st : Store) : res (list nat * Store) :=
  for_each (λ '(ps, st) info,
              d ← getitem domains (pi_domain info);
              '(p, st1) ← new_Port domain_first (pi_name info) (Some d)
                                   (pi_direction info) st;
              Ok (ps ++ [p], st1))
           ([], st) infos.

(** [from_jsonifiable(cls, obj)].  The dicts of [obj] are iterated in the
    order of [map_to_list]; the order decides which reference an object gets
    and the order of the circuit's instance list. *)
Definition from_jsonifiable (domain_first : bool) (obj : Repr) (st : Store)
    : res (nat * Store) :=
  let name := r_name obj in
  if decide (name = "") then Raise ValueError
  else
    let '(domains, st1) :=
      foldl (λ '(m, st) '(k, (causal, one2one)),
               let '(d, st1) := new_Domain k causal one2one st in
               (<[k := d]> m, st1))
            ((∅ : gmap string nat), st) (map_to_list (r_domains obj)) in
    '(ports, st2) ← make_ports domain_first domains (r_ports obj) st1;
    let ports_dict := ports_by_name (heap st2) ports in
    '(component_types, st3) ←
      for_each (λ '(m, st) '(k, v),
                  '(ps, st1) ← make_ports domain_first domains v st;
                  '(t, st2) ← new_ComponentType k ps st1;
                  Ok (<[k := t]> m, st2))
               ((∅ : gmap string nat), st2) (map_to_list (r_component_types obj));
    '(component_instances, st4) ←
      for_each (λ '(m, st) '(k, v),
                  t ← getitem component_types v;
                  '(i, st1) ← make_instance domain_first (CT t) k st;
                  Ok (<[k := i]> m, st1))
               ((∅ : gmap string nat), st3) (map_to_list (r_component_instances obj));
    '(ret, st5) ← new_Circuit name ports ((map_to_list component_instances).*2) st4;
    let _resolve_port (h : Heap) (cn pn : string) : res nat :=
      if decide (cn = name) then getitem ports_dict pn
      else
        i ← getitem component_instances cn;
        getitem (ports_by_name h (ComponentInstance.ports (insts h i))) pn in
    '(connections, h6) ←
      for_each (λ '(cs, h) '(sn, spn, tn, tpn),
                  s ← _resolve_port h sn spn;
                  t ← _resolve_port h tn tpn;
                  '(c, h1) ← new_Connection s t h;
                  Ok (cs ++ [c], h1))
               ([], heap st5) (r_connections obj);
    Ok (ret, mkStore (set_connections ret connections h6)
                     (next_domain st5) (next_port st5) (next_ctype st5)
                     (next_inst st5) (next_circuit st5)).

(** A circuit, the representation [to_jsonifiable] gives of it, and the
    representation of the circuit [from_jsonifiable] builds from that. *)
Definition round_trip (order : ∀ A : Type, list A → list A) (domain_first : bool)
    (c : res (nat * Store)) : res (Repr * Repr) :=
  '(k, st) ← c;
  r ← to_jsonifiable order (heap st) k;
  '(k', st') ← from_jsonifiable domain_first r st;
  r' ← to_jsonifiable order (heap st') k';
  Ok (r, r').

(** ** Concrete heaps *)

(** Domain 0 is [fieldmode] (causal, one to one), domain 1 is [electrical]
    (not causal), domain 2 is [signal] (causal, not one to one). *)
Definition ex_domains (d : nat) : Domain.t :=
  match d with
  | 0 => Domain.mk "fieldmode" true true
  | 1 => Domain.mk "electrical" false false
  | 2 => Domain.mk "signal" true false
  | _ => Domain.default
  end.

(** Circuit 0 ("MZ") with the external ports 0 ([In1], in) and 1 ([Out1],
    out) of [fieldmode] and 6 ([Control]) of [electrical]; instance 0 ("b1")
    with the ports 2 ([In1], in), 3 ([Out1], out) and 7 ([Control]); instance
    1 ("b2") with the ports 4 ([In1], in), 5 ([Out1], out) and 8 ([Control]).
    No connection has been made. *)
Definition ex_ports (p : nat) : Port.t :=
  match p with
  | 0 => Port.mk "In1" (Some 0) (Some Din) (Some (OT (CK 0))) [] []
  | 1 => Port.mk "Out1" (Some 0) (Some Dout) (Some (OT (CK 0))) [] []
  | 2 => Port.mk "In1" (Some 0) (Some Din) (Some (OI 0)) [] []
  | 3 => Port.mk "Out1" (Some 0) (Some Dout) (Some (OI 0)) [] []
  | 4 => Port.mk "In1" (Some 0) (Some Din) (Some (OI 1)) [] []
  | 5 => Port.mk "Out1" (Some 0) (Some Dout) (Some (OI 1)) [] []
  | 6 => Port.mk "Control" (Some 1) (Some Dinout) (Some (OT (CK 0))) [] []
  | 7 => Port.mk "Control" (Some 1) (Some Dinout) (Some (OI 0)) [] []
  | 8 => Port.mk "Control" (Some 1) (Some Dinout) (Some (OI 1)) [] []
  | _ => Port.default
  end.

Definition ex_ctypes (t : nat) : ComponentType.t :=
  match t with
  | 0 => ComponentType.mk "Phase" [9; 10; 11]
  | _ => ComponentType.default
  end.

Definition ex_insts (i : nat) : ComponentInstance.t :=
  match i with
  | 0 => ComponentInstance.mk "b1" (Some (CT 0)) [2; 3; 7] (Some 0)
  | 1 => ComponentInstance.mk "b2" (Some (CT 0)) [4; 5; 8] (Some 0)
  | _ => ComponentInstance.default
  end.

Definition ex_circuits (k : nat) : Circuit.t :=
  match k with
  | 0 => Circuit.mk "MZ" [0; 1; 6] [0; 1] [] None
  | _ => Circuit.default
  end.

Definition ex_heap : Heap :=
  mkHeap ex_domains ex_ports (λ _, Connection.default) ex_ctypes ex_insts
         ex_circuits 0.

(** [ex_heap] with instance 0 ("b1") selected in circuit 0. *)
Definition ex_heap_selected : Heap :=
  upd_circuit (Circuit.with_selected_element (Some (OOwner (OI 0)))) 0 ex_heap.

(** The heap of a successful command; [ex_heap] when it raises. *)
Definition run (m : res Heap) : Heap :=
  match m with Ok h => h | Raise _ => ex_heap end.

(** The states of a successful command; none when it raises. *)
Definition run_states (m : res (list Heap)) : list Heap :=
  match m with Ok l => l | Raise _ => [] end.

(** [ex_heap] after a click on port 3 ([b1.Out1]) and a click on port 4
    ([b2.In1]). *)
Definition ex_clicked : Heap :=
  run (handle_element_msg 0 (OPort 4) Click
         (run (handle_element_msg 0 (OPort 3) Click ex_heap))).





(** A circuit [MZ] with an external input and output, a component type [BS]
    with an input and an output and two instances of it, wired in a chain
    through [connect]. *)
Definition ex_chain (domain_first : bool) : res (nat * Store) :=
  let '(d, st) := new_Domain "fieldmode" true true empty_store in
  '(pin, st) ← new_Port domain_first "In1" (Some d) (Some Din) st;
  '(pout, st) ← new_Port domain_first "Out1" (Some d) (Some Dout) st;
  '(tin, st) ← new_Port domain_first "In1" (Some d) (Some Din) st;
  '(tout, st) ← new_Port domain_first "Out1" (Some d) (Some Dout) st;
  '(t, st) ← new_ComponentType "BS" [tin; tout] st;
  '(b1, st) ← make_instance domain_first (CT t) "b1" st;
  '(b2, st) ← make_instance domain_first (CT t) "b2" st;
  '(k, st) ← new_Circuit "MZ" [pin; pout] [b1; b2] st;
  let port (i : nat) (n : nat) :=
    default 0 (ComponentInstance.ports (insts (heap st) i) !! n) in
  h ← connect k pin (port b1 0) true (heap st);
  h ← connect k (port b1 1) (port b2 0) true h;
  h ← connect k (port b2 1) pout true h;
  Ok (k, mkStore h (next_domain st) (next_port st) (next_ctype st) (next_inst st)
                 (next_circuit st)).
(** * Properties *)

(** Closed facts about concrete heaps, by evaluation. *)
Ltac evaluate := repeat apply conj; vm_compute; reflexivity.

(** ** Domain.valid_connection *)

Lemma py_in_port_conns (p : nat) (l : list nat) :
  py_in (OPort p) (OConn <$> l) = false.
Proof.
  unfold py_in. induction l as [|c l IH]; [done|].
  rewrite fmap_cons. simpl. exact IH.
Qed.

Lemma valid_connection_causal h p1 p2 d :
  p1 ≠ p2 →
  Port.domain (ports h p1) = Some d →
  Port.domain (ports h p2) = Some d →
  Domain.causal (domains h d) = true →
  valid_connection h p1 p2 =
    if is_source h p1 && is_target h p2 then
      if Domain.one2one (domains h d)
         && bool_decide (0 < length (Port.connections_out (ports h p1))
                             + length (Port.connections_in (ports h p1)))
      then Ok None else Ok (Some (p1, p2))
    else if is_source h p2 && is_target h p1 then
      if Domain.one2one (domains h d)
         && bool_decide (0 < length (Port.connections_in (ports h p1))
                             + length (Port.connections_out (ports h p2)))
      then Ok None else Ok (Some (p2, p1))
    else Ok None.
Proof.
  intros Hne H1 H2 Hc. unfold valid_connection.
  rewrite decide_False by done. rewrite H1, H2.
  rewrite decide_False by (intros ?; congruence).
  simpl. rewrite Hc, !py_in_port_conns. done.
Qed.

Lemma valid_connection_non_causal h p1 p2 d :
  p1 ≠ p2 →
  Port.domain (ports h p1) = Some d →
  Port.domain (ports h p2) = Some d →
  Domain.causal (domains h d) = false →
  valid_connection h p1 p2 = Ok (Some (p1, p2)).
Proof.
  intros Hne H1 H2 Hc. unfold valid_connection.
  rewrite decide_False by done. rewrite H1, H2.
  rewrite decide_False by (intros ?; congruence).
  simpl. rewrite Hc, !py_in_port_conns. done.
Qed.

(** C3: the code evaluated at the failing input.  In the causal domain 0,
    [is_source] and [is_target] both hold of the external [in] port 0
    ([MZ.In1]) and of the external [out] port 1 ([MZ.Out1]): the external
    role is added to the internal one instead of replacing it.  The internal
    [out] port 3 ([b1.Out1]) is a source only.  [valid_connection] on the
    ports 0 and 3, two sources, accepts in either order, and returns the
    pair from the internal port to the external one; [connect] on the same
    two ports stores the connection from port 0 to port 3. *)
Theorem C3_both_sources_accepted :
  Port.domain (ports ex_heap 0) = Some 0
  ∧ Port.domain (ports ex_heap 3) = Some 0
  ∧ Domain.causal (domains ex_heap 0) = true
  ∧ (is_ext ex_heap 0 = true ∧ Port.direction (ports ex_heap 0) = Some Din)
  ∧ (is_ext ex_heap 1 = true ∧ Port.direction (ports ex_heap 1) = Some Dout)
  ∧ (is_ext ex_heap 3 = false ∧ Port.direction (ports ex_heap 3) = Some Dout)
  ∧ (is_source ex_heap 0 = true ∧ is_target ex_heap 0 = true)
  ∧ (is_source ex_heap 1 = true ∧ is_target ex_heap 1 = true)
  ∧ (is_source ex_heap 3 = true ∧ is_target ex_heap 3 = false)
  ∧ valid_connection ex_heap 0 3 = Ok (Some (3, 0))
  ∧ valid_connection ex_heap 3 0 = Ok (Some (3, 0))
  ∧ Connection.source (conns (run (connect 0 0 3 true ex_heap)) 0) = Some 0
  ∧ Connection.target (conns (run (connect 0 0 3 true ex_heap)) 0) = Some 3.
Proof. evaluate. Qed.

(** What [valid_connection] does keep for two distinct ports of one causal
    domain: the pair it returns is one of the two orders of the given ports,
    with a first component that passes [is_source] and a second that passes
    [is_target]; a pair without a source is rejected; and between two
    internal ports the accepted pair has exactly one source.  With an
    external port, [is_source] and [is_target] both hold of it, and the roles
    decide nothing. *)
Lemma valid_connection_roles h p1 p2 d :
  p1 ≠ p2 →
  Port.domain (ports h p1) = Some d →
  Port.domain (ports h p2) = Some d →
  Domain.causal (domains h d) = true →
  (∀ p, is_source h p = true ↔
        Port.direction (ports h p) = Some Dout
        ∨ (Port.direction (ports h p) = Some Din ∧ is_ext h p = true))
  ∧ (∀ p, is_target h p = true ↔
        Port.direction (ports h p) = Some Din
        ∨ (Port.direction (ports h p) = Some Dout ∧ is_ext h p = true))
  ∧ (∀ s t, valid_connection h p1 p2 = Ok (Some (s, t)) →
        is_source h s = true ∧ is_target h t = true
        ∧ ((s, t) = (p1, p2) ∨ (s, t) = (p2, p1))
        ∧ (is_ext h p1 = false → is_ext h p2 = false →
           is_source h t = false ∧ is_target h s = false))
  ∧ (is_source h p1 = false → is_source h p2 = false →
     valid_connection h p1 p2 = Ok None).
Proof.
  intros Hne H1 H2 Hc.
  assert (Hsrc : ∀ p, is_source h p = true ↔
        Port.direction (ports h p) = Some Dout
        ∨ (Port.direction (ports h p) = Some Din ∧ is_ext h p = true)).
  { intros p. unfold is_source.
    rewrite orb_true_iff, andb_true_iff, !bool_decide_eq_true. done. }
  assert (Htgt : ∀ p, is_target h p = true ↔
        Port.direction (ports h p) = Some Din
        ∨ (Port.direction (ports h p) = Some Dout ∧ is_ext h p = true)).
  { intros p. unfold is_target.
    rewrite orb_true_iff, andb_true_iff, !bool_decide_eq_true. done. }
  assert (Hint : ∀ s t, is_source h s = true → is_target h t = true →
             is_ext h s = false → is_ext h t = false →
             is_source h t = false ∧ is_target h s = false).
  { intros s t Hs Ht Es Et.
    apply Hsrc in Hs as [Hs|[_ Hs]]; [|congruence].
    apply Htgt in Ht as [Ht|[_ Ht]]; [|congruence].
    split; apply not_true_is_false; intros HH.
    - apply Hsrc in HH as [HH|[_ HH]]; congruence.
    - apply Htgt in HH as [HH|[_ HH]]; congruence. }
  split; [exact Hsrc|]. split; [exact Htgt|].
  rewrite (valid_connection_causal h p1 p2 d) by done.
  split.
  - intros s t.
    destruct (is_source h p1 && is_target h p2) eqn:E1; cbv iota.
    + apply andb_true_iff in E1 as [Es Et].
      destruct (Domain.one2one _ && _); [done|]. intros ?; simplify_eq.
      repeat split; auto; intros; eapply Hint; eauto.
    + destruct (is_source h p2 && is_target h p1) eqn:E2; cbv iota; [|done].
      apply andb_true_iff in E2 as [Es Et].
      destruct (Domain.one2one _ && _); [done|]. intros ?; simplify_eq.
      repeat split; auto; intros; eapply Hint; eauto.
  - intros -> ->. done.
Qed.

(** C4: the code evaluated at the failing input.  In the causal one-to-one
    domain 0, after [b1.Out1 -> b2.In1] (ports 3 and 4) has been connected,
    [valid_connection] still accepts the free source 5 with the occupied
    target 4 when the source is given first, and [connect] then gives port 4
    a second incoming connection; with the same two ports in the other
    order the sibling branch rejects. *)
Lemma C4_occupied_target_accepted :
  ∃ h1 h2,
    connect 0 3 4 true ex_heap = Ok h1
    ∧ Domain.causal (domains h1 0) = true ∧ Domain.one2one (domains h1 0) = true
    ∧ Port.connections_out (ports h1 3) = [0]
    ∧ Port.connections_in (ports h1 4) = [0]
    ∧ valid_connection h1 5 4 = Ok (Some (5, 4))
    ∧ valid_connection h1 4 5 = Ok None
    ∧ connect 0 5 4 true h1 = Ok h2
    ∧ Port.connections_in (ports h2 4) = [0; 1]
    ∧ Circuit.connections (circuits h2 0) = [0; 1].
Proof.
  exists (run (connect 0 3 4 true ex_heap)).
  exists (run (connect 0 5 4 true (run (connect 0 3 4 true ex_heap)))).
  evaluate.
Qed.

(** C5: the code evaluated at the failing input.  In the non-causal domain 1,
    after the ports 6 and 7 have been connected, [valid_connection] accepts
    the reversed pair (and the same pair again), and [connect] stores a
    second connection between the two ports. *)
Lemma C5_reversed_duplicate_accepted :
  ∃ h1 h2,
    connect 0 6 7 true ex_heap = Ok h1
    ∧ Domain.causal (domains h1 1) = false
    ∧ Connection.source (conns h1 0) = Some 6
    ∧ Connection.target (conns h1 0) = Some 7
    ∧ Circuit.connections (circuits h1 0) = [0]
    ∧ valid_connection h1 7 6 = Ok (Some (7, 6))
    ∧ valid_connection h1 6 7 = Ok (Some (6, 7))
    ∧ connect 0 7 6 true h1 = Ok h2
    ∧ Circuit.connections (circuits h2 0) = [0; 1]
    ∧ Connection.source (conns h2 1) = Some 7
    ∧ Connection.target (conns h2 1) = Some 6.
Proof.
  exists (run (connect 0 6 7 true ex_heap)).
  exists (run (connect 0 7 6 true (run (connect 0 6 7 true ex_heap)))).
  evaluate.
Qed.

(** ** Circuit.connect *)

(** C8: when [valid_connection] rejects the pair, [connect] with
    [verify=True] returns normally and leaves the whole heap as it was: no
    connection is created, and the circuit's connection list and the
    adjacency lists of all ports are unchanged. *)
Theorem C8_connect_rejected_is_noop h k p1 p2 :
  valid_connection h p1 p2 = Ok None →
  connect k p1 p2 true h = Ok h.
Proof. intros Hv. unfold connect. rewrite Hv. reflexivity. Qed.

Lemma C8_connect_rejected_is_noop_witness :
  connect 0 3 5 true ex_heap = Ok ex_heap.
Proof. apply C8_connect_rejected_is_noop. reflexivity. Defined.

Lemma ports_upd_port f p h q :
  ports (upd_port f p h) q = if decide (p = q) then f (ports h p) else ports h q.
Proof. unfold upd_port, insert, fn_insert; simpl. done. Qed.

Lemma conns_upd_conn f c h c' :
  conns (upd_conn f c h) c' = if decide (c = c') then f (conns h c) else conns h c'.
Proof. unfold upd_conn, insert, fn_insert; simpl. done. Qed.

Lemma circuits_upd_circuit f k h k' :
  circuits (upd_circuit f k h) k' =
    if decide (k = k') then f (circuits h k) else circuits h k'.
Proof. unfold upd_circuit, insert, fn_insert; simpl. done. Qed.

(** What [_connections_changed] does to the heap. *)
Section stamp.
Context (k : nat).

Lemma stamp_ports l h : ports (stamp k l h) = ports h.
Proof. induction l; simpl; auto. Qed.

Lemma stamp_circuits l h : circuits (stamp k l h) = circuits h.
Proof. induction l; simpl; auto. Qed.

Lemma stamp_next_conn l h : next_conn (stamp k l h) = next_conn h.
Proof. induction l; simpl; auto. Qed.

Lemma stamp_insts l h : insts (stamp k l h) = insts h.
Proof. induction l; simpl; auto. Qed.

Lemma stamp_domains l h : domains (stamp k l h) = domains h.
Proof. induction l; simpl; auto. Qed.

Lemma stamp_conns l h c :
  conns (stamp k l h) c =
    if decide (c ∈ l) then Connection.with_circuit (Some k) (conns h c)
    else conns h c.
Proof.
  induction l as [|x l IH].
  - rewrite decide_False; [done|]. apply not_elem_of_nil.
  - change (stamp k (x :: l) h)
      with (upd_conn (Connection.with_circuit (Some k)) x (stamp k l h)).
    rewrite conns_upd_conn.
    destruct (decide (x = c)) as [->|Hx].
    + rewrite decide_True by left. rewrite IH.
      destruct (decide (c ∈ l)); by destruct (conns h c).
    + rewrite IH. destruct (decide (c ∈ l)) as [Hin|Hin].
      * rewrite decide_True; [done|]. by right.
      * rewrite decide_False; [done|].
        intros [?|?]%elem_of_cons; congruence.
Qed.
End stamp.

Lemma set_connections_eq k new h :
  set_connections k new h =
    stamp k (list_difference new (Circuit.connections (circuits h k)))
          (upd_circuit (Circuit.with_connections new) k h).
Proof. reflexivity. Qed.

Lemma set_connections_ports k new h :
  ports (set_connections k new h) = ports h.
Proof. rewrite set_connections_eq, stamp_ports. done. Qed.

Lemma set_connections_next_conn k new h :
  next_conn (set_connections k new h) = next_conn h.
Proof. rewrite set_connections_eq, stamp_next_conn. done. Qed.

Lemma set_connections_circuits k new h k' :
  circuits (set_connections k new h) k' =
    if decide (k = k') then Circuit.with_connections new (circuits h k)
    else circuits h k'.
Proof. rewrite set_connections_eq, stamp_circuits. apply circuits_upd_circuit. Qed.

Lemma set_connections_conns k new h c :
  conns (set_connections k new h) c =
    if decide (c ∈ list_difference new (Circuit.connections (circuits h k)))
    then Connection.with_circuit (Some k) (conns h c)
    else conns h c.
Proof. rewrite set_connections_eq, stamp_conns. done. Qed.

Lemma set_connections_source k new h c :
  Connection.source (conns (set_connections k new h) c) = Connection.source (conns h c).
Proof. rewrite set_connections_conns. by destruct (decide _). Qed.

Lemma set_connections_target k new h c :
  Connection.target (conns (set_connections k new h) c) = Connection.target (conns h c).
Proof. rewrite set_connections_conns. by destruct (decide _). Qed.

Lemma assigned_source_unset c s h :
  Connection.source (conns h c) = None →
  assigned_source c s h =
    upd_port (λ P, Port.with_connections_out (Port.connections_out P ++ [c]) P) s
             (upd_conn (Connection.with_source (Some s)) c h).
Proof. intros E. unfold assigned_source. rewrite E. by rewrite decide_False. Qed.

Lemma set_target_unset c t h :
  Connection.target (conns h c) = None →
  set_target c t h =
    upd_port (λ P, Port.with_connections_in (Port.connections_in P ++ [c]) P) t
             (upd_conn (Connection.with_target (Some t)) c h).
Proof. intros E. unfold set_target. rewrite E. by rewrite decide_False. Qed.

(** The state right after [Connection(source=s, target=t)]. *)
Lemma built_Connection_spec s t h :
  let c := next_conn h in
  let h1 := (built_Connection s t h).2 in
  (built_Connection s t h).1 = c
  ∧ next_conn h1 = S c
  ∧ circuits h1 = circuits h
  ∧ conns h1 c = Connection.mk (Some s) (Some t) None
  ∧ (∀ c', c' ≠ c → conns h1 c' = conns h c')
  ∧ (∀ q, Port.connections_out (ports h1 q) =
          if decide (q = s) then Port.connections_out (ports h q) ++ [c]
          else Port.connections_out (ports h q))
  ∧ (∀ q, Port.connections_in (ports h1 q) =
          if decide (q = t) then Port.connections_in (ports h q) ++ [c]
          else Port.connections_in (ports h q))
  ∧ (∀ q, Port.name (ports h1 q) = Port.name (ports h q)
          ∧ Port.domain (ports h1 q) = Port.domain (ports h q)
          ∧ Port.direction (ports h1 q) = Port.direction (ports h q)
          ∧ Port.parent (ports h1 q) = Port.parent (ports h q)).
Proof.
  intros c h1. subst h1. unfold built_Connection. fold c. cbn [fst snd].
  rewrite assigned_source_unset by (cbn; by rewrite fn_lookup_insert).
  rewrite set_target_unset by (cbn; by rewrite !fn_lookup_insert).
  split; [done|]. split; [done|]. split; [done|].
  split. { cbn. by rewrite !fn_lookup_insert. }
  split. { intros c' Hc'. cbn. by rewrite !fn_lookup_insert_ne. }
  split; [|split]; intros q; rewrite !ports_upd_port; cbn [ports upd_conn upd_port];
    unfold insert, fn_insert;
    repeat (destruct (decide _); subst; try done; cbn).
Qed.

(** The registration leaves the ports' domains as they are, so the colour
    read of [_source_changed] looks at the domain the port had. *)
Lemma source_registered_domain c old new h q :
  Port.domain (ports (source_registered c old new h) q) = Port.domain (ports h q).
Proof.
  unfold source_registered. rewrite ports_upd_port.
  destruct old as [o|]; rewrite ?ports_upd_port;
    repeat (destruct (decide _); subst; try done; cbn).
Qed.

(** [c.source = p] returns exactly when the value is unchanged or [p] has a
    domain, and then leaves [assigned_source]. *)
Lemma set_source_eq c p h :
  set_source c p h =
    if decide (Connection.source (conns h c) = Some p) then Ok h
    else match Port.domain (ports h p) with
         | Some _ => Ok (assigned_source c p h)
         | None => Raise AttributeError
         end.
Proof.
  unfold set_source, assigned_source, source_changed. case_decide; [done|].
  rewrite source_registered_domain. cbn [upd_conn ports].
  by destruct (Port.domain (ports h p)).
Qed.

Lemma set_source_Ok c p h h' :
  set_source c p h = Ok h' → h' = assigned_source c p h.
Proof.
  rewrite set_source_eq. unfold assigned_source at 2.
  case_decide; [congruence|].
  destruct (Port.domain (ports h p)); [|done].
  unfold assigned_source. rewrite decide_False by done. congruence.
Qed.

(** The constructor returns exactly when the source port has a domain. *)
Lemma new_Connection_eq s t h :
  new_Connection s t h =
    match Port.domain (ports h s) with
    | Some _ => Ok (built_Connection s t h)
    | None => Raise AttributeError
    end.
Proof.
  unfold new_Connection, built_Connection. rewrite set_source_eq.
  cbn [conns ports]. rewrite fn_lookup_insert. cbn [Connection.source Connection.default].
  rewrite decide_False by done.
  by destruct (Port.domain (ports h s)).
Qed.

(** What [connect] does once the pair has passed (or skipped) validation and
    has been oriented as [(s, t)]. *)
Lemma connect_store_spec k s t h :
  let c := next_conn h in
  let h1 := (built_Connection s t h).2 in
  let h' := set_connections k (Circuit.connections (circuits h1 k) ++ [c]) h1 in
  Connection.source (conns h' c) = Some s
  ∧ Connection.target (conns h' c) = Some t
  ∧ Circuit.connections (circuits h' k) = Circuit.connections (circuits h k) ++ [c]
  ∧ Port.connections_out (ports h' s) = Port.connections_out (ports h s) ++ [c]
  ∧ Port.connections_in (ports h' t) = Port.connections_in (ports h t) ++ [c].
Proof.
  intros c h1 h'.
  destruct (built_Connection_spec s t h) as (_ & _ & Hk & Hc & _ & Hout & Hin & _).
  fold c h1 in Hk, Hc, Hout, Hin. subst h'.
  rewrite set_connections_source, set_connections_target, set_connections_circuits,
    set_connections_ports, Hc, Hk, Hout, Hin.
  rewrite !decide_True by done. done.
Qed.

(** C10: for two ports of one domain, [connect] with [verify=False] skips
    validation and still orients the connection it stores (the one with the
    next fresh reference).  In a causal domain the source is [p1] when [p1] is
    a source and the ports are swapped otherwise; in a non-causal domain the
    order is the given one.  The connection is appended to the circuit's list
    and registered with both ports. *)
Theorem C10_connect_unverified_orientation h k p1 p2 d :
  Port.domain (ports h p1) = Some d →
  Port.domain (ports h p2) = Some d →
  ∃ h' s t,
    connect k p1 p2 false h = Ok h'
    ∧ Connection.source (conns h' (next_conn h)) = Some s
    ∧ Connection.target (conns h' (next_conn h)) = Some t
    ∧ Circuit.connections (circuits h' k) =
        Circuit.connections (circuits h k) ++ [next_conn h]
    ∧ Port.connections_out (ports h' s) =
        Port.connections_out (ports h s) ++ [next_conn h]
    ∧ Port.connections_in (ports h' t) =
        Port.connections_in (ports h t) ++ [next_conn h]
    ∧ (Domain.causal (domains h d) = true → is_source h p1 = true →
       s = p1 ∧ t = p2)
    ∧ (Domain.causal (domains h d) = true → is_source h p1 = false →
       s = p2 ∧ t = p1)
    ∧ (Domain.causal (domains h d) = false → s = p1 ∧ t = p2).
Proof.
  intros Hd Hd2. unfold connect, mbind, res_bind, attr. rewrite Hd.
  destruct (Domain.causal (domains h d)) eqn:Hc;
    [destruct (is_source h p1) eqn:Hs|]; cbn [andb negb];
    rewrite new_Connection_eq, ?Hd, ?Hd2.
  - destruct (built_Connection p1 p2 h) as [c h1] eqn:E.
    destruct (connect_store_spec k p1 p2 h) as (A & B & C & D & F).
    destruct (built_Connection_spec p1 p2 h) as (Hc1 & _).
    rewrite E in A, B, C, D, F, Hc1. cbn [fst snd] in *. subst c.
    eexists _, p1, p2. repeat split; try done.
  - destruct (built_Connection p2 p1 h) as [c h1] eqn:E.
    destruct (connect_store_spec k p2 p1 h) as (A & B & C & D & F).
    destruct (built_Connection_spec p2 p1 h) as (Hc1 & _).
    rewrite E in A, B, C, D, F, Hc1. cbn [fst snd] in *. subst c.
    eexists _, p2, p1. repeat split; try done.
  - destruct (built_Connection p1 p2 h) as [c h1] eqn:E.
    destruct (connect_store_spec k p1 p2 h) as (A & B & C & D & F).
    destruct (built_Connection_spec p1 p2 h) as (Hc1 & _).
    rewrite E in A, B, C, D, F, Hc1. cbn [fst snd] in *. subst c.
    eexists _, p1, p2. repeat split; try done.
Qed.

Lemma C10_connect_unverified_orientation_witness :
  ∃ h' s t,
    connect 0 4 3 false ex_heap = Ok h'
    ∧ Connection.source (conns h' (next_conn ex_heap)) = Some s
    ∧ Connection.target (conns h' (next_conn ex_heap)) = Some t
    ∧ Circuit.connections (circuits h' 0) =
        Circuit.connections (circuits ex_heap 0) ++ [next_conn ex_heap]
    ∧ Port.connections_out (ports h' s) =
        Port.connections_out (ports ex_heap s) ++ [next_conn ex_heap]
    ∧ Port.connections_in (ports h' t) =
        Port.connections_in (ports ex_heap t) ++ [next_conn ex_heap]
    ∧ (Domain.causal (domains ex_heap 0) = true → is_source ex_heap 4 = true →
       s = 4 ∧ t = 3)
    ∧ (Domain.causal (domains ex_heap 0) = true → is_source ex_heap 4 = false →
       s = 3 ∧ t = 4)
    ∧ (Domain.causal (domains ex_heap 0) = false → s = 4 ∧ t = 3).
Proof.
  apply (C10_connect_unverified_orientation ex_heap 0 4 3 0); reflexivity.
Defined.

(** Without a domain on the port that becomes the source the constructor
    raises [AttributeError] at the colour read and [connect] stores
    nothing. *)
Lemma connect_unverified_raises h k p1 p2 d :
  Port.domain (ports h p1) = Some d →
  Port.domain (ports h p2) = None →
  Domain.causal (domains h d) = true →
  is_source h p1 = false →
  connect k p1 p2 false h = Raise AttributeError.
Proof.
  intros Hd Hd2 Hc Hs. unfold connect, mbind, res_bind, attr.
  rewrite Hd, Hc, Hs. cbn [andb negb]. by rewrite new_Connection_eq, Hd2.
Qed.

(** ** Lists of connections *)

Section lists.
Context {A : Type}.
Implicit Types l : list A.

Lemma filter_ext_in (P Q : A → Prop) `{∀ x, Decision (P x)} `{∀ x, Decision (Q x)} l :
  (∀ x, x ∈ l → (P x ↔ Q x)) → filter P l = filter Q l.
Proof.
  induction l as [|a l IH]; intros HPQ; [done|].
  rewrite !filter_cons.
  assert (Ha : P a ↔ Q a) by (apply HPQ; left).
  rewrite IH by (intros x Hx; apply HPQ; by right).
  destruct (decide (P a)), (decide (Q a)); tauto.
Qed.

Lemma filter_all (P : A → Prop) `{∀ x, Decision (P x)} l :
  (∀ x, x ∈ l → P x) → filter P l = l.
Proof.
  induction l as [|a l IH]; intros HP; [done|].
  rewrite filter_cons, decide_True by (apply HP; left).
  f_equal. apply IH. intros x Hx. apply HP. by right.
Qed.

Lemma filter_none (P : A → Prop) `{∀ x, Decision (P x)} l :
  (∀ x, x ∈ l → ¬ P x) → filter P l = [].
Proof.
  induction l as [|a l IH]; intros HP; [done|].
  rewrite filter_cons, decide_False by (apply HP; left).
  apply IH. intros x Hx. apply HP. by right.
Qed.

Lemma list_difference_filter `{EqDecision A} (P : A → Prop) `{∀ x, Decision (P x)} l :
  list_difference (filter P l) l = [].
Proof.
  destruct (list_difference (filter P l) l) as [|x xs] eqn:E; [done|].
  assert (Hx : x ∈ list_difference (filter P l) l) by (rewrite E; left).
  apply list_elem_of_difference in Hx as [Hx1 Hx2].
  apply list_elem_of_filter in Hx1 as [_ Hx1]. done.
Qed.

Lemma list_difference_snoc_fresh `{EqDecision A} l x :
  x ∉ l → list_difference (l ++ [x]) l = [x].
Proof.
  intros Hx.
  assert (Hl : ∀ l', (∀ y, y ∈ l' → y ∈ l) → list_difference l' l = []).
  { induction l' as [|a l' IH]; intros Hsub; [done|]. simpl.
    destruct (decide_rel _ a l) as [_|Hn]; [|exfalso; apply Hn, Hsub; left].
    apply IH. intros y Hy. apply Hsub. by right. }
  assert (Happ : ∀ l1 l2 k : list A,
    list_difference (l1 ++ l2) k = list_difference l1 k ++ list_difference l2 k).
  { intros l1 l2 k. induction l1 as [|a l1 IH]; [done|]. simpl.
    destruct (decide_rel _ a k); simpl; by rewrite IH. }
  rewrite Happ, Hl by done. simpl. by destruct (decide_rel _ x l).
Qed.
End lists.

Lemma remove_self_as_filter c l : remove_self c l = filter (λ x, x ∉ [c]) l.
Proof.
  unfold remove_self. apply filter_ext_in. intros x _.
  rewrite list_elem_of_singleton. done.
Qed.

Lemma elem_of_remove_self c x l : x ∈ remove_self c l ↔ x ≠ c ∧ x ∈ l.
Proof. unfold remove_self. apply (list_elem_of_filter (λ y, y ≠ c)). Qed.

Lemma remove_self_absent c l : c ∉ l → remove_self c l = l.
Proof.
  intros Hc. unfold remove_self. apply filter_all.
  intros x Hx ->. done.
Qed.

Lemma occ_app c l1 l2 : occ c (l1 ++ l2) = occ c l1 + occ c l2.
Proof. unfold occ. by rewrite filter_app, length_app. Qed.

Lemma occ_singleton c x : occ c [x] = if decide (x = c) then 1 else 0.
Proof. unfold occ. rewrite filter_cons. by destruct (decide (x = c)). Qed.

Lemma occ_absent c l : c ∉ l → occ c l = 0.
Proof.
  intros Hc. unfold occ. rewrite filter_none; [done|].
  intros x Hx ->. done.
Qed.

Lemma occ_present c l : c ∈ l → 1 ≤ occ c l.
Proof.
  intros Hc. unfold occ.
  assert (Hin : c ∈ filter (λ x, x = c) l) by (by apply list_elem_of_filter).
  destruct (filter _ l); [by apply elem_of_nil in Hin | simpl; lia].
Qed.

Lemma occ_filter_le c (P : nat → Prop) `{∀ x, Decision (P x)} l :
  occ c (filter P l) ≤ occ c l.
Proof.
  unfold occ. induction l as [|a l IH]; [done|].
  rewrite (filter_cons P). destruct (decide (P a)).
  - rewrite !filter_cons. destruct (decide (a = c)); simpl; lia.
  - rewrite (filter_cons (λ x, x = c)). destruct (decide (a = c)); simpl; lia.
Qed.

Lemma occ_remove_self_same c l : occ c (remove_self c l) = 0.
Proof. apply occ_absent. rewrite elem_of_remove_self. tauto. Qed.

Lemma occ_remove_self_other c c' l : c ≠ c' → occ c (remove_self c' l) = occ c l.
Proof.
  intros Hne. unfold occ, remove_self. rewrite list_filter_filter.
  f_equal. apply filter_ext_in. intros x _. split; [tauto|].
  intros ->. done.
Qed.

Lemma stamp_ctypes k l h : ctypes (stamp k l h) = ctypes h.
Proof. induction l; simpl; auto. Qed.

Lemma set_connections_shrink k (P : nat → Prop) `{∀ x, Decision (P x)} h c :
  conns (set_connections k (filter P (Circuit.connections (circuits h k))) h) c
  = conns h c.
Proof.
  rewrite set_connections_conns, list_difference_filter.
  rewrite decide_False; [done|]. apply not_elem_of_nil.
Qed.

Lemma set_connections_remove_self k c h c' :
  conns (set_connections k (remove_self c (Circuit.connections (circuits h k))) h) c'
  = conns h c'.
Proof. unfold remove_self. apply set_connections_shrink. Qed.

(** ** Connection.remove *)

Lemma remove_eq c s t k h :
  conns h c = Connection.mk (Some s) (Some t) (Some k) →
  remove c h =
    Ok (upd_port (λ P, Port.with_connections_in
                         (remove_self c (Port.connections_in P)) P) t
         (upd_port (λ P, Port.with_connections_out
                           (remove_self c (Port.connections_out P)) P) s
            (set_connections k
               (remove_self c (Circuit.connections (circuits h k))) h))).
Proof.
  intros E. unfold remove, mbind, res_bind. rewrite E. cbn [Connection.circuit attr].
  cbn [conns upd_port].
  rewrite !set_connections_remove_self, E.
  cbn [Connection.source Connection.target attr]. done.
Qed.

Lemma remove_purges h c :
  consistent h → c < next_conn h →
  ∃ h', remove c h = Ok h' ∧ purged [c] h h'.
Proof.
  intros Hh Hc.
  destruct (complete h Hh c Hc) as (s & t & k & E).
  eexists. split; [by apply remove_eq|].
  split.
  - intros q. rewrite !ports_upd_port, !set_connections_ports.
    assert (Hq : s ≠ q → Port.connections_out (ports h q)
                        = filter (λ x, x ∉ [c]) (Port.connections_out (ports h q))).
    { intros Hs. symmetry; apply filter_all; intros x Hx; rewrite list_elem_of_singleton.
      intros ->; apply (out_source h Hh) in Hx; rewrite E in Hx; cbn in Hx; congruence. }
    repeat case_decide; subst; cbn; rewrite <- ?remove_self_as_filter; auto;
      rewrite remove_self_as_filter; auto.
  - intros q. rewrite !ports_upd_port, !set_connections_ports.
    assert (Hq : t ≠ q → Port.connections_in (ports h q)
                        = filter (λ x, x ∉ [c]) (Port.connections_in (ports h q))).
    { intros Hs. symmetry; apply filter_all; intros x Hx; rewrite list_elem_of_singleton.
      intros ->; apply (in_target h Hh) in Hx; rewrite E in Hx; cbn in Hx; congruence. }
    repeat case_decide; subst; cbn; rewrite <- ?remove_self_as_filter; auto;
      rewrite remove_self_as_filter; auto.
  - intros k'. cbn [circuits upd_port]. rewrite set_connections_circuits.
    destruct (decide (k = k')) as [->|Hk]; cbn [Circuit.connections Circuit.with_connections].
    + apply remove_self_as_filter.
    + symmetry; apply filter_all; intros x Hx; rewrite list_elem_of_singleton;
      intros ->; apply (live_circuit h Hh) in Hx; rewrite E in Hx; cbn in Hx; congruence.
  - intros c'. cbn [conns upd_port]. apply set_connections_remove_self.
  - cbn [next_conn upd_port]. apply set_connections_next_conn.
  - intros q. rewrite !ports_upd_port, !set_connections_ports.
    repeat case_decide; subst; done.
  - intros k'. cbn [circuits upd_port]. rewrite set_connections_circuits.
    by destruct (decide (k = k')) as [->|Hk].
  - intros i. cbn [insts upd_port]. rewrite set_connections_eq, stamp_insts. done.
  - intros d. cbn [domains upd_port]. rewrite set_connections_eq, stamp_domains. done.
  - intros d. cbn [ctypes upd_port]. rewrite set_connections_eq, stamp_ctypes. done.
Qed.

(** ** Taking connections out of every list *)

Lemma purged_refl h : purged [] h h.
Proof.
  split; try done; intros; symmetry; apply filter_all; intros; apply not_elem_of_nil.
Qed.

Lemma purged_trans X Y h h1 h2 :
  purged X h h1 → purged Y h1 h2 → purged (X ++ Y) h h2.
Proof.
  intros [A1 A2 A3 A4 A5 A6 A7 A8 A9 A10] [B1 B2 B3 B4 B5 B6 B7 B8 B9 B10].
  assert (Hf : ∀ l : list nat,
    filter (λ x, x ∉ Y) (filter (λ x, x ∉ X) l) = filter (λ x, x ∉ X ++ Y) l).
  { intros l. rewrite list_filter_filter. apply filter_ext_in.
    intros x _. rewrite elem_of_app. tauto. }
  split; intros.
  - by rewrite B1, A1, Hf.
  - by rewrite B2, A2, Hf.
  - by rewrite B3, A3, Hf.
  - by rewrite B4, A4.
  - by rewrite B5, A5.
  - destruct (A6 q) as (?&?&?&?), (B6 q) as (?&?&?&?). repeat split; congruence.
  - destruct (A7 k) as (?&?&?&?), (B7 k) as (?&?&?&?). repeat split; congruence.
  - by rewrite B8, A8.
  - by rewrite B9, A9.
  - by rewrite B10, A10.
Qed.

Lemma purged_consistent X h h' : consistent h → purged X h h' → consistent h'.
Proof.
  intros Hh [A1 A2 A3 A4 A5 _ _ _ _ _].
  split.
  - intros c q. rewrite A1, A5, list_elem_of_filter. intros [_ Hc].
    by apply (made_out h Hh c q).
  - intros c q. rewrite A2, A5, list_elem_of_filter. intros [_ Hc].
    by apply (made_in h Hh c q).
  - intros c k. rewrite A3, A5, list_elem_of_filter. intros [_ Hc].
    by apply (made_circuit h Hh c k).
  - intros c. rewrite A4, A5. apply (complete h Hh).
  - intros c q. rewrite A1. etrans; [apply occ_filter_le|apply (out_once h Hh)].
  - intros c q. rewrite A2. etrans; [apply occ_filter_le|apply (in_once h Hh)].
  - intros c q. rewrite A1, A4, list_elem_of_filter. intros [_ Hc].
    by apply (out_source h Hh).
  - intros c q. rewrite A2, A4, list_elem_of_filter. intros [_ Hc].
    by apply (in_target h Hh).
  - intros c k. rewrite A3, A4, list_elem_of_filter. intros [_ Hc].
    by apply (live_circuit h Hh).
  - intros c k s. rewrite A3, A4, A1, !list_elem_of_filter. intros [Hx Hc] Hs.
    split; [done|]. by apply (live_out h Hh c k).
  - intros c k s. rewrite A3, A4, A2, !list_elem_of_filter. intros [Hx Hc] Hs.
    split; [done|]. by apply (live_in h Hh c k).
Qed.

Lemma remove_consistent h c h' :
  consistent h → c < next_conn h → remove c h = Ok h' → consistent h'.
Proof.
  intros Hh Hc Hr. destruct (remove_purges h c Hh Hc) as (h'' & Hr' & Hp).
  rewrite Hr in Hr'. injection Hr' as <-. by eapply purged_consistent.
Qed.

(** ** Assignment to [source] and [target] *)

Lemma assigned_source_spec h c p o :
  Connection.source (conns h c) = Some o → o ≠ p →
  let h' := assigned_source c p h in
  next_conn h' = next_conn h
  ∧ circuits h' = circuits h
  ∧ (∀ c', conns h' c' = if decide (c' = c)
                         then Connection.with_source (Some p) (conns h c)
                         else conns h c')
  ∧ (∀ q, Port.connections_in (ports h' q) = Port.connections_in (ports h q))
  ∧ (∀ q, Port.connections_out (ports h' q) =
          if decide (q = p) then Port.connections_out (ports h q) ++ [c]
          else if decide (q = o) then remove_self c (Port.connections_out (ports h q))
          else Port.connections_out (ports h q)).
Proof.
  intros Ho Hne h'. subst h'. unfold assigned_source. rewrite Ho.
  rewrite decide_False by congruence. unfold source_registered.
  split; [done|]. split; [done|].
  split. { intros c'. cbn [conns upd_port]. rewrite conns_upd_conn.
           repeat case_decide; subst; done. }
  split; intros q; rewrite !ports_upd_port; cbn [ports upd_conn];
    repeat case_decide; subst; try done.
Qed.

Lemma set_target_spec h c p o :
  Connection.target (conns h c) = Some o → o ≠ p →
  let h' := set_target c p h in
  next_conn h' = next_conn h
  ∧ circuits h' = circuits h
  ∧ (∀ c', conns h' c' = if decide (c' = c)
                         then Connection.with_target (Some p) (conns h c)
                         else conns h c')
  ∧ (∀ q, Port.connections_out (ports h' q) = Port.connections_out (ports h q))
  ∧ (∀ q, Port.connections_in (ports h' q) =
          if decide (q = p) then Port.connections_in (ports h q) ++ [c]
          else if decide (q = o) then remove_self c (Port.connections_in (ports h q))
          else Port.connections_in (ports h q)).
Proof.
  intros Ho Hne h'. subst h'. unfold set_target. rewrite Ho.
  rewrite decide_False by congruence. unfold target_changed.
  split; [done|]. split; [done|].
  split. { intros c'. cbn [conns upd_port]. rewrite conns_upd_conn.
           repeat case_decide; subst; done. }
  split; intros q; rewrite !ports_upd_port; cbn [ports upd_conn];
    repeat case_decide; subst; try done.
Qed.

Lemma assigned_source_consistent h c p :
  consistent h → c < next_conn h → consistent (assigned_source c p h).
Proof.
  intros Hh Hc.
  destruct (complete h Hh c Hc) as (o & t & k & E).
  destruct (decide (o = p)) as [->|Hne].
  { unfold assigned_source. rewrite E. cbn. by rewrite decide_True. }
  destruct (assigned_source_spec h c p o) as (Hn & Hk & Hcs & Hin & Hout);
    [by rewrite E|done|].
  set (h' := assigned_source c p h) in *.
  assert (Hcp : c ∉ Port.connections_out (ports h p)).
  { intros Hx. apply (out_source h Hh) in Hx. rewrite E in Hx. cbn in Hx. congruence. }
  assert (Hsrc : ∀ c', c' ≠ c →
            Connection.source (conns h' c') = Connection.source (conns h c')).
  { intros c' Hc'. rewrite Hcs. by rewrite decide_False. }
  assert (Hsrc_c : Connection.source (conns h' c) = Some p).
  { rewrite Hcs, decide_True by done. done. }
  assert (Htgt : ∀ c', Connection.target (conns h' c') = Connection.target (conns h c')).
  { intros c'. rewrite Hcs. case_decide; subst; done. }
  assert (Hcirc : ∀ c', Connection.circuit (conns h' c') = Connection.circuit (conns h c')).
  { intros c'. rewrite Hcs. case_decide; subst; done. }
  assert (Hmem : ∀ c' q, c' ∈ Port.connections_out (ports h' q) →
            (c' = c ∧ q = p) ∨ (c' ≠ c ∧ c' ∈ Port.connections_out (ports h q))).
  { intros c' q. rewrite Hout. repeat case_decide; subst.
    - rewrite elem_of_app, list_elem_of_singleton. intros [Hx| ->]; [|by left].
      right. split; [|done]. intros ->. done.
    - rewrite elem_of_remove_self. tauto.
    - intros Hx. right. split; [|done]. intros ->.
      apply (out_source h Hh) in Hx. rewrite E in Hx. cbn in Hx. congruence. }
  split.
  - intros c' q Hx. rewrite Hn. apply Hmem in Hx as [[-> _]|[_ Hx]]; [done|].
    by apply (made_out h Hh c' q).
  - intros c' q. rewrite Hin, Hn. apply (made_in h Hh).
  - intros c' k'. rewrite Hk, Hn. apply (made_circuit h Hh).
  - intros c'. rewrite Hn, Hcs. intros Hc'. case_decide; subst.
    + rewrite E. by eexists _, _, _.
    + by apply (complete h Hh).
  - intros c' q. rewrite Hout. repeat case_decide; subst.
    + rewrite occ_app, occ_singleton. case_decide; subst.
      * rewrite occ_absent by done. lia.
      * pose proof (out_once h Hh c' p). lia.
    + unfold remove_self. etrans; [apply occ_filter_le|apply (out_once h Hh)].
    + apply (out_once h Hh).
  - intros c' q. rewrite Hin. apply (in_once h Hh).
  - intros c' q Hx. apply Hmem in Hx as [[-> ->]|[Hc' Hx]]; [done|].
    rewrite Hsrc by done. by apply (out_source h Hh).
  - intros c' q. rewrite Hin, Htgt. apply (in_target h Hh).
  - intros c' k'. rewrite Hk, Hcirc. apply (live_circuit h Hh).
  - intros c' k' s. rewrite Hk. intros Hl Hs.
    destruct (decide (c' = c)) as [->|Hc'].
    + rewrite Hsrc_c in Hs. injection Hs as <-.
      rewrite Hout, decide_True by done. rewrite elem_of_app, list_elem_of_singleton. auto.
    + rewrite Hsrc in Hs by done.
      pose proof (live_out h Hh c' k' s Hl Hs) as Hx.
      rewrite Hout. repeat case_decide; subst; try done.
      * rewrite elem_of_app. auto.
      * by rewrite elem_of_remove_self.
  - intros c' k' s. rewrite Hk, Htgt, Hin. apply (live_in h Hh).
Qed.

Lemma set_target_consistent h c p :
  consistent h → c < next_conn h → consistent (set_target c p h).
Proof.
  intros Hh Hc.
  destruct (complete h Hh c Hc) as (s0 & o & k & E).
  destruct (decide (o = p)) as [->|Hne].
  { unfold set_target. rewrite E. cbn. by rewrite decide_True. }
  destruct (set_target_spec h c p o) as (Hn & Hk & Hcs & Hout & Hin);
    [by rewrite E|done|].
  set (h' := set_target c p h) in *.
  assert (Hcp : c ∉ Port.connections_in (ports h p)).
  { intros Hx. apply (in_target h Hh) in Hx. rewrite E in Hx. cbn in Hx. congruence. }
  assert (Htgt : ∀ c', c' ≠ c →
            Connection.target (conns h' c') = Connection.target (conns h c')).
  { intros c' Hc'. rewrite Hcs. by rewrite decide_False. }
  assert (Htgt_c : Connection.target (conns h' c) = Some p).
  { rewrite Hcs, decide_True by done. done. }
  assert (Hsrc : ∀ c', Connection.source (conns h' c') = Connection.source (conns h c')).
  { intros c'. rewrite Hcs. case_decide; subst; done. }
  assert (Hcirc : ∀ c', Connection.circuit (conns h' c') = Connection.circuit (conns h c')).
  { intros c'. rewrite Hcs. case_decide; subst; done. }
  assert (Hmem : ∀ c' q, c' ∈ Port.connections_in (ports h' q) →
            (c' = c ∧ q = p) ∨ (c' ≠ c ∧ c' ∈ Port.connections_in (ports h q))).
  { intros c' q. rewrite Hin. repeat case_decide; subst.
    - rewrite elem_of_app, list_elem_of_singleton. intros [Hx| ->]; [|by left].
      right. split; [|done]. intros ->. done.
    - rewrite elem_of_remove_self. tauto.
    - intros Hx. right. split; [|done]. intros ->.
      apply (in_target h Hh) in Hx. rewrite E in Hx. cbn in Hx. congruence. }
  split.
  - intros c' q. rewrite Hout, Hn. apply (made_out h Hh).
  - intros c' q Hx. rewrite Hn. apply Hmem in Hx as [[-> _]|[_ Hx]]; [done|].
    by apply (made_in h Hh c' q).
  - intros c' k'. rewrite Hk, Hn. apply (made_circuit h Hh).
  - intros c'. rewrite Hn, Hcs. intros Hc'. case_decide; subst.
    + rewrite E. by eexists _, _, _.
    + by apply (complete h Hh).
  - intros c' q. rewrite Hout. apply (out_once h Hh).
  - intros c' q. rewrite Hin. repeat case_decide; subst.
    + rewrite occ_app, occ_singleton. case_decide; subst.
      * rewrite occ_absent by done. lia.
      * pose proof (in_once h Hh c' p). lia.
    + unfold remove_self. etrans; [apply occ_filter_le|apply (in_once h Hh)].
    + apply (in_once h Hh).
  - intros c' q. rewrite Hout, Hsrc. apply (out_source h Hh).
  - intros c' q Hx. apply Hmem in Hx as [[-> ->]|[Hc' Hx]]; [done|].
    rewrite Htgt by done. by apply (in_target h Hh).
  - intros c' k'. rewrite Hk, Hcirc. apply (live_circuit h Hh).
  - intros c' k' s. rewrite Hk, Hsrc, Hout. apply (live_out h Hh).
  - intros c' k' s. rewrite Hk. intros Hl Hs.
    destruct (decide (c' = c)) as [->|Hc'].
    + rewrite Htgt_c in Hs. injection Hs as <-.
      rewrite Hin, decide_True by done. rewrite elem_of_app, list_elem_of_singleton. auto.
    + rewrite Htgt in Hs by done.
      pose proof (live_in h Hh c' k' s Hl Hs) as Hx.
      rewrite Hin. repeat case_decide; subst; try done.
      * rewrite elem_of_app. auto.
      * by rewrite elem_of_remove_self.
Qed.

(** ** Circuit.connect and the invariant *)

Lemma connect_cases k p1 p2 verify h h' :
  connect k p1 p2 verify h = Ok h' →
  h' = h
  ∨ ∃ s t, h' = set_connections k
                 (Circuit.connections (circuits (built_Connection s t h).2 k)
                  ++ [(built_Connection s t h).1])
                 (built_Connection s t h).2.
Proof.
  unfold connect, mbind, res_bind.
  destruct (if verify then _ else _) as [[]|]; [| |done].
  { intros [= <-]. by left. }
  destruct (attr _) as [d|]; [|done].
  destruct (if Domain.causal (domains h d) && negb (is_source h p1)
            then (p2, p1) else (p1, p2)) as [s t].
  rewrite new_Connection_eq. destruct (Port.domain (ports h s)); [|done].
  destruct (built_Connection s t h) as [c h1] eqn:E.
  intros [= <-]. right. exists s, t. by rewrite E.
Qed.

Lemma store_spec k s t h :
  next_conn h ∉ Circuit.connections (circuits h k) →
  let c := next_conn h in
  let h1 := (built_Connection s t h).2 in
  let h' := set_connections k (Circuit.connections (circuits h1 k) ++ [c]) h1 in
  next_conn h' = S c
  ∧ (∀ k', Circuit.connections (circuits h' k') =
           if decide (k' = k) then Circuit.connections (circuits h k) ++ [c]
           else Circuit.connections (circuits h k'))
  ∧ (∀ c', conns h' c' = if decide (c' = c)
                         then Connection.mk (Some s) (Some t) (Some k)
                         else conns h c')
  ∧ (∀ q, Port.connections_out (ports h' q) =
          if decide (q = s) then Port.connections_out (ports h q) ++ [c]
          else Port.connections_out (ports h q))
  ∧ (∀ q, Port.connections_in (ports h' q) =
          if decide (q = t) then Port.connections_in (ports h q) ++ [c]
          else Port.connections_in (ports h q)).
Proof.
  intros Hfresh c h1 h'.
  destruct (built_Connection_spec s t h) as (_ & Hn & Hk & Hc & Hcs & Hout & Hin & _).
  fold c h1 in Hn, Hk, Hc, Hcs, Hout, Hin. subst h'.
  split; [by rewrite set_connections_next_conn|].
  split.
  { intros k'. rewrite set_connections_circuits, Hk.
    repeat case_decide; subst; done. }
  split.
  { intros c'. rewrite set_connections_conns, Hk.
    rewrite list_difference_snoc_fresh by done.
    destruct (decide (c' = c)) as [->|Hc'].
    - rewrite decide_True by (by apply list_elem_of_singleton). by rewrite Hc.
    - rewrite decide_False by (by rewrite list_elem_of_singleton). by apply Hcs. }
  split; intros q; by rewrite set_connections_ports.
Qed.

Lemma store_consistent k s t h :
  consistent h →
  consistent (set_connections k
                (Circuit.connections (circuits (built_Connection s t h).2 k)
                 ++ [next_conn h])
                (built_Connection s t h).2).
Proof.
  intros Hh.
  assert (Hfk : ∀ k', next_conn h ∉ Circuit.connections (circuits h k')).
  { intros k' Hx. apply (made_circuit h Hh) in Hx. lia. }
  assert (Hfo : ∀ q, next_conn h ∉ Port.connections_out (ports h q)).
  { intros q Hx. apply (made_out h Hh) in Hx. lia. }
  assert (Hfi : ∀ q, next_conn h ∉ Port.connections_in (ports h q)).
  { intros q Hx. apply (made_in h Hh) in Hx. lia. }
  destruct (store_spec k s t h (Hfk k)) as (Hn & Hk & Hcs & Hout & Hin).
  set (c := next_conn h) in *.
  set (h' := set_connections _ _ _) in *.
  assert (Hold : ∀ c', c' ≠ c → conns h' c' = conns h c').
  { intros c' Hc'. rewrite Hcs. by rewrite decide_False. }
  assert (Hnew : conns h' c = Connection.mk (Some s) (Some t) (Some k)).
  { rewrite Hcs. by rewrite decide_True. }
  assert (Hmo : ∀ c' q, c' ∈ Port.connections_out (ports h' q) →
            (c' = c ∧ q = s) ∨ (c' ≠ c ∧ c' ∈ Port.connections_out (ports h q))).
  { intros c' q. rewrite Hout. case_decide; subst.
    - rewrite elem_of_app, list_elem_of_singleton. intros [Hx| ->]; [|by left].
      right. split; [|done]. intros ->. by apply Hfo in Hx.
    - intros Hx. right. split; [|done]. intros ->. by apply Hfo in Hx. }
  assert (Hmi : ∀ c' q, c' ∈ Port.connections_in (ports h' q) →
            (c' = c ∧ q = t) ∨ (c' ≠ c ∧ c' ∈ Port.connections_in (ports h q))).
  { intros c' q. rewrite Hin. case_decide; subst.
    - rewrite elem_of_app, list_elem_of_singleton. intros [Hx| ->]; [|by left].
      right. split; [|done]. intros ->. by apply Hfi in Hx.
    - intros Hx. right. split; [|done]. intros ->. by apply Hfi in Hx. }
  assert (Hmk : ∀ c' k', c' ∈ Circuit.connections (circuits h' k') →
            (c' = c ∧ k' = k) ∨ (c' ≠ c ∧ c' ∈ Circuit.connections (circuits h k'))).
  { intros c' k'. rewrite Hk. case_decide; subst.
    - rewrite elem_of_app, list_elem_of_singleton. intros [Hx| ->]; [|by left].
      right. split; [|done]. intros ->. by apply Hfk in Hx.
    - intros Hx. right. split; [|done]. intros ->. by apply Hfk in Hx. }
  split.
  - intros c' q Hx. rewrite Hn. apply Hmo in Hx as [[-> _]|[_ Hx]]; [lia|].
    apply (made_out h Hh) in Hx. fold c in Hx. lia.
  - intros c' q Hx. rewrite Hn. apply Hmi in Hx as [[-> _]|[_ Hx]]; [lia|].
    apply (made_in h Hh) in Hx. fold c in Hx. lia.
  - intros c' k' Hx. rewrite Hn. apply Hmk in Hx as [[-> _]|[_ Hx]]; [lia|].
    apply (made_circuit h Hh) in Hx. fold c in Hx. lia.
  - intros c'. rewrite Hn. intros Hc'. destruct (decide (c' = c)) as [->|Hne].
    + rewrite Hnew. by eexists _, _, _.
    + rewrite Hold by done. apply (complete h Hh). fold c. lia.
  - intros c' q. rewrite Hout. case_decide; subst.
    + rewrite occ_app, occ_singleton. case_decide; subst.
      * rewrite occ_absent by apply Hfo. lia.
      * pose proof (out_once h Hh c' s). lia.
    + apply (out_once h Hh).
  - intros c' q. rewrite Hin. case_decide; subst.
    + rewrite occ_app, occ_singleton. case_decide; subst.
      * rewrite occ_absent by apply Hfi. lia.
      * pose proof (in_once h Hh c' t). lia.
    + apply (in_once h Hh).
  - intros c' q Hx. apply Hmo in Hx as [[-> ->]|[Hc' Hx]]; [by rewrite Hnew|].
    rewrite Hold by done. by apply (out_source h Hh).
  - intros c' q Hx. apply Hmi in Hx as [[-> ->]|[Hc' Hx]]; [by rewrite Hnew|].
    rewrite Hold by done. by apply (in_target h Hh).
  - intros c' k' Hx. apply Hmk in Hx as [[-> ->]|[Hc' Hx]]; [by rewrite Hnew|].
    rewrite Hold by done. by apply (live_circuit h Hh).
  - intros c' k' s' Hx Hs. apply Hmk in Hx as [[-> ->]|[Hc' Hx]].
    + rewrite Hnew in Hs. injection Hs as <-.
      rewrite Hout, decide_True by done. rewrite elem_of_app, list_elem_of_singleton. auto.
    + rewrite Hold in Hs by done.
      pose proof (live_out h Hh c' k' s' Hx Hs) as Hy.
      rewrite Hout. case_decide; subst; [|done]. rewrite elem_of_app. auto.
  - intros c' k' s' Hx Hs. apply Hmk in Hx as [[-> ->]|[Hc' Hx]].
    + rewrite Hnew in Hs. injection Hs as <-.
      rewrite Hin, decide_True by done. rewrite elem_of_app, list_elem_of_singleton. auto.
    + rewrite Hold in Hs by done.
      pose proof (live_in h Hh c' k' s' Hx Hs) as Hy.
      rewrite Hin. case_decide; subst; [|done]. rewrite elem_of_app. auto.
Qed.

Lemma connect_consistent k p1 p2 verify h h' :
  consistent h → connect k p1 p2 verify h = Ok h' → consistent h'.
Proof.
  intros Hh Hc. apply connect_cases in Hc as [->|(s & t & ->)]; [done|].
  destruct (built_Connection_spec s t h) as (-> & _).
  by apply store_consistent.
Qed.

Lemma unconnected_consistent h : unconnected h → consistent h.
Proof.
  intros (Hn & Hp & Hk).
  split; intros c q; rewrite ?(proj1 (Hp q)), ?(proj2 (Hp q)), ?Hk, ?Hn;
    try (by intros ?%elem_of_nil); try (by intros ? ?%elem_of_nil);
    try (intros; lia); try (cbn; lia).
Qed.

Lemma reachable_consistent h : reachable h → consistent h.
Proof.
  induction 1 as [h Hu|h k p1 p2 v h' _ IH Hc|h c p _ IH Hc|h c p _ IH Hc|h c h' _ IH Hc Hr].
  - by apply unconnected_consistent.
  - by eapply connect_consistent.
  - by apply assigned_source_consistent.
  - by apply set_target_consistent.
  - by eapply remove_consistent.
Qed.

Lemma consistent_live h c k :
  consistent h → c ∈ Circuit.connections (circuits h k) →
  ∃ s t, conns h c = Connection.mk (Some s) (Some t) (Some k)
    ∧ (∀ q, occ c (Port.connections_out (ports h q)) = if decide (q = s) then 1 else 0)
    ∧ (∀ q, occ c (Port.connections_in (ports h q)) = if decide (q = t) then 1 else 0).
Proof.
  intros Hh Hl.
  destruct (complete h Hh c (made_circuit h Hh c k Hl)) as (s & t & k' & E).
  pose proof (live_circuit h Hh c k Hl) as Hk. rewrite E in Hk. cbn in Hk.
  injection Hk as ->.
  exists s, t. split; [done|]. split; intros q; case_decide; subst.
  - pose proof (out_once h Hh c s).
    pose proof (occ_present c _ (live_out h Hh c k s Hl ltac:(by rewrite E))). lia.
  - apply occ_absent. intros Hx. apply (out_source h Hh) in Hx.
    rewrite E in Hx. cbn in Hx. congruence.
  - pose proof (in_once h Hh c t).
    pose proof (occ_present c _ (live_in h Hh c k t Hl ltac:(by rewrite E))). lia.
  - apply occ_absent. intros Hx. apply (in_target h Hh) in Hx.
    rewrite E in Hx. cbn in Hx. congruence.
Qed.

(** C6: in every heap the public operations on connections lead to, a
    connection of a circuit's list has a source and a target, occurs exactly
    once in the [connections_out] of its source, exactly once in the
    [connections_in] of its target, and in no other adjacency list. *)
Theorem C6_live_connection_in_its_endpoints h c k :
  reachable h →
  c ∈ Circuit.connections (circuits h k) →
  ∃ s t,
    Connection.source (conns h c) = Some s
    ∧ Connection.target (conns h c) = Some t
    ∧ (∀ q, occ c (Port.connections_out (ports h q)) = if decide (q = s) then 1 else 0)
    ∧ (∀ q, occ c (Port.connections_in (ports h q)) = if decide (q = t) then 1 else 0).
Proof.
  intros Hr Hl.
  destruct (consistent_live h c k (reachable_consistent h Hr) Hl) as (s & t & E & Ho & Hi).
  exists s, t. rewrite E. done.
Qed.

Lemma ex_heap_unconnected : unconnected ex_heap.
Proof.
  split; [done|]. split.
  - intros p. do 9 (destruct p as [|p]; [done|]). done.
  - intros k. destruct k as [|k]; done.
Qed.

Lemma ex_heap_connected_reachable : reachable (run (connect 0 3 4 true ex_heap)).
Proof.
  apply (reach_connect ex_heap 0 3 4 true);
    [apply reach_init, ex_heap_unconnected|reflexivity].
Qed.

Lemma C6_live_connection_in_its_endpoints_witness :
  ∃ s t,
    Connection.source (conns (run (connect 0 3 4 true ex_heap)) 0) = Some s
    ∧ Connection.target (conns (run (connect 0 3 4 true ex_heap)) 0) = Some t
    ∧ (∀ q, occ 0 (Port.connections_out (ports (run (connect 0 3 4 true ex_heap)) q))
            = if decide (q = s) then 1 else 0)
    ∧ (∀ q, occ 0 (Port.connections_in (ports (run (connect 0 3 4 true ex_heap)) q))
            = if decide (q = t) then 1 else 0).
Proof.
  apply (C6_live_connection_in_its_endpoints _ 0 0 ex_heap_connected_reachable).
  vm_compute. left.
Defined.

(** C7: for a connection [c] of the list of circuit [k], in a heap the
    public operations lead to, [remove] returns normally and filters [c] out
    of the list of [k], of the [connections_out] of its source and of the
    [connections_in] of its target; every other list, every connection
    object and every other field is as before, the other connections stay in
    the circuit's list, and afterwards [c] is in no list at all. *)
Theorem C7_remove_frame h c k :
  reachable h →
  c ∈ Circuit.connections (circuits h k) →
  ∃ s t h',
    Connection.source (conns h c) = Some s
    ∧ Connection.target (conns h c) = Some t
    ∧ remove c h = Ok h'
    ∧ (∀ k', Circuit.connections (circuits h' k') =
             if decide (k' = k) then remove_self c (Circuit.connections (circuits h k))
             else Circuit.connections (circuits h k'))
    ∧ (∀ q, Port.connections_out (ports h' q) =
            if decide (q = s) then remove_self c (Port.connections_out (ports h q))
            else Port.connections_out (ports h q))
    ∧ (∀ q, Port.connections_in (ports h' q) =
            if decide (q = t) then remove_self c (Port.connections_in (ports h q))
            else Port.connections_in (ports h q))
    ∧ (∀ c', c' ≠ c → c' ∈ Circuit.connections (circuits h k) →
             c' ∈ Circuit.connections (circuits h' k))
    ∧ (∀ k', c ∉ Circuit.connections (circuits h' k'))
    ∧ (∀ q, (c ∉ Port.connections_out (ports h' q))
            ∧ (c ∉ Port.connections_in (ports h' q)))
    ∧ (∀ c', conns h' c' = conns h c')
    ∧ (∀ q, Port.name (ports h' q) = Port.name (ports h q)
            ∧ Port.domain (ports h' q) = Port.domain (ports h q)
            ∧ Port.direction (ports h' q) = Port.direction (ports h q)
            ∧ Port.parent (ports h' q) = Port.parent (ports h q))
    ∧ (∀ k', Circuit.name (circuits h' k') = Circuit.name (circuits h k')
            ∧ Circuit.ports (circuits h' k') = Circuit.ports (circuits h k')
            ∧ Circuit.component_instances (circuits h' k') =
                Circuit.component_instances (circuits h k')
            ∧ Circuit.selected_element (circuits h' k') =
                Circuit.selected_element (circuits h k'))
    ∧ (∀ i, insts h' i = insts h i).
Proof.
  intros Hr Hl. pose proof (reachable_consistent h Hr) as Hh.
  destruct (complete h Hh c (made_circuit h Hh c k Hl)) as (s & t & k' & E).
  pose proof (live_circuit h Hh c k Hl) as Hk. rewrite E in Hk. cbn in Hk.
  injection Hk as ->.
  destruct (remove_purges h c Hh (made_circuit h Hh c k Hl))
    as (h' & Hrem & [A1 A2 A3 A4 A5 A6 A7 A8 A9 A10]).
  exists s, t, h'. rewrite E. split; [done|]. split; [done|]. split; [done|].
  split.
  { intros k'. rewrite A3, <- remove_self_as_filter. case_decide; subst; [done|].
    apply remove_self_absent. intros Hx. apply (live_circuit h Hh) in Hx.
    rewrite E in Hx. cbn in Hx. congruence. }
  split.
  { intros q. rewrite A1, <- remove_self_as_filter. case_decide; subst; [done|].
    apply remove_self_absent. intros Hx. apply (out_source h Hh) in Hx.
    rewrite E in Hx. cbn in Hx. congruence. }
  split.
  { intros q. rewrite A2, <- remove_self_as_filter. case_decide; subst; [done|].
    apply remove_self_absent. intros Hx. apply (in_target h Hh) in Hx.
    rewrite E in Hx. cbn in Hx. congruence. }
  split.
  { intros c' Hc' Hx. rewrite A3, list_elem_of_filter, list_elem_of_singleton. done. }
  split.
  { intros k'. rewrite A3, list_elem_of_filter, list_elem_of_singleton. tauto. }
  split.
  { intros q. rewrite A1, A2, !list_elem_of_filter, list_elem_of_singleton. tauto. }
  done.
Qed.

Lemma C7_remove_frame_witness :
  ∃ s t h',
    Connection.source (conns (run (connect 0 3 4 true ex_heap)) 0) = Some s
    ∧ Connection.target (conns (run (connect 0 3 4 true ex_heap)) 0) = Some t
    ∧ remove 0 (run (connect 0 3 4 true ex_heap)) = Ok h'
    ∧ Circuit.connections (circuits h' 0) = []
    ∧ Port.connections_out (ports h' 3) = []
    ∧ Port.connections_in (ports h' 4) = [].
Proof.
  destruct (C7_remove_frame _ 0 0 ex_heap_connected_reachable)
    as (s & t & h' & Hs & Ht & Hrem & Hk & Ho & Hi & _).
  { vm_compute. left. }
  exists s, t, h'. split; [done|]. split; [done|]. split; [done|].
  injection Hs as <-. injection Ht as <-.
  rewrite Hk, Ho, Hi. done.
Defined.

(** ** CircuitBuilder.delete_selected_component *)

Lemma insts_upd_inst f i h j :
  insts (upd_inst f i h) j = if decide (i = j) then f (insts h i) else insts h j.
Proof. unfold upd_inst, insert, fn_insert; simpl. done. Qed.

Lemma adopt_wiring k l h :
  ports (adopt k l h) = ports h ∧ conns (adopt k l h) = conns h
  ∧ circuits (adopt k l h) = circuits h ∧ next_conn (adopt k l h) = next_conn h
  ∧ domains (adopt k l h) = domains h ∧ ctypes (adopt k l h) = ctypes h.
Proof.
  revert h. induction l as [|i l IH]; intros h; [done|].
  change (adopt k (i :: l) h)
    with (adopt k l (upd_inst (ComponentInstance.with_circuit (Some k)) i h)).
  destruct (IH (upd_inst (ComponentInstance.with_circuit (Some k)) i h))
    as (-> & -> & -> & -> & -> & ->). done.
Qed.

Lemma adopt_insts k l h i :
  ComponentInstance.ports (insts (adopt k l h) i) = ComponentInstance.ports (insts h i)
  ∧ ComponentInstance.name (insts (adopt k l h) i) = ComponentInstance.name (insts h i)
  ∧ ComponentInstance.ctype (insts (adopt k l h) i) = ComponentInstance.ctype (insts h i).
Proof.
  revert h. induction l as [|j l IH]; intros h; [done|].
  change (adopt k (j :: l) h)
    with (adopt k l (upd_inst (ComponentInstance.with_circuit (Some k)) j h)).
  destruct (IH (upd_inst (ComponentInstance.with_circuit (Some k)) j h))
    as (-> & -> & ->).
  rewrite insts_upd_inst. by case_decide; subst.
Qed.

(** The invariant reads the ports, the connections, the connection lists of
    the circuits and the allocation counter only. *)
Lemma consistent_same_wiring h h' :
  ports h' = ports h → conns h' = conns h → next_conn h' = next_conn h →
  (∀ k, Circuit.connections (circuits h' k) = Circuit.connections (circuits h k)) →
  consistent h → consistent h'.
Proof.
  intros Hp Hc Hn Hk Hh.
  split; intros *; rewrite ?Hp, ?Hc, ?Hn, ?Hk; apply Hh.
Qed.

Lemma remove_each_purges ccs h :
  consistent h → (∀ cc, cc ∈ ccs → cc < next_conn h) →
  ∃ h', remove_each ccs h = Ok h' ∧ purged ccs h h'.
Proof.
  revert h. induction ccs as [|cc ccs IH]; intros h Hh Hlt.
  { exists h. split; [done|]. apply purged_refl. }
  destruct (remove_purges h cc Hh) as (h1 & Hr & Hp1); [apply Hlt; left|].
  destruct (IH h1) as (h' & Hr' & Hp').
  { by eapply purged_consistent. }
  { intros x Hx. rewrite (purged_next _ _ _ Hp1). apply Hlt. by right. }
  exists h'. split.
  - cbn [remove_each]. rewrite Hr. exact Hr'.
  - apply (purged_trans [cc] ccs h h1 h' Hp1 Hp').
Qed.

Lemma remove_port_connections_purges ps h :
  consistent h →
  ∃ X h',
    remove_port_connections ps h = Ok h'
    ∧ purged X h h'
    ∧ (∀ p, p ∈ ps → Port.connections_in (ports h' p) = []
                     ∧ Port.connections_out (ports h' p) = [])
    ∧ (∀ x, x ∈ X → ∃ p, p ∈ ps ∧ (x ∈ Port.connections_in (ports h p)
                                   ∨ x ∈ Port.connections_out (ports h p))).
Proof.
  revert h. induction ps as [|p ps IH]; intros h Hh.
  { exists [], h. split; [done|]. split; [apply purged_refl|].
    split; [by intros ? ?%elem_of_nil|by intros ? ?%elem_of_nil]. }
  set (ccs := Port.connections_in (ports h p) ++ Port.connections_out (ports h p)).
  destruct (remove_each_purges ccs h Hh) as (h1 & Hr1 & Hp1).
  { intros cc [Hx|Hx]%elem_of_app;
      [by apply (made_in h Hh cc p)|by apply (made_out h Hh cc p)]. }
  destruct (IH h1 (purged_consistent _ _ _ Hh Hp1)) as (X & h' & Hr & Hp & Hempty & HX).
  exists (ccs ++ X), h'. split; [|split; [|split]].
  - cbn [remove_port_connections]. fold ccs. rewrite Hr1. exact Hr.
  - by eapply purged_trans.
  - intros q [->|Hq]%elem_of_cons; [|by apply Hempty].
    rewrite (purged_in _ _ _ Hp), (purged_out _ _ _ Hp),
      (purged_in _ _ _ Hp1), (purged_out _ _ _ Hp1).
    rewrite !(filter_none (λ x, x ∉ ccs)); [done| |];
      intros x Hx Hn; apply Hn; unfold ccs; rewrite elem_of_app; auto.
  - intros x [Hx|Hx]%elem_of_app.
    + exists p. split; [left|]. by apply elem_of_app in Hx.
    + destruct (HX x Hx) as (q & Hq & Hxq). exists q. split; [by right|].
      rewrite (purged_in _ _ _ Hp1), (purged_out _ _ _ Hp1), !list_elem_of_filter in Hxq.
      tauto.
Qed.

Lemma length_filter_complement {A} (P : A → Prop) `{∀ x, Decision (P x)} (l : list A) :
  length (filter (λ x, ¬ P x) l) + length (filter P l) = length l.
Proof.
  induction l as [|a l IH]; [done|].
  rewrite !filter_cons. destruct (decide (P a)).
  - rewrite decide_False by tauto. simpl. lia.
  - rewrite decide_True by done. simpl. lia.
Qed.

(** C9, as stated, fails on the order: with instance 0 selected and
    connected by connection 0 ([b1.Out1 -> b2.In1]), the first statement of
    [delete_selected_component] takes the instance out of the circuit's
    list while connection 0 is still in the circuit's list and in the
    adjacency lists of its ports; the connections go in the second step. *)
Lemma C9_instance_removed_before_its_connections :
  ∃ h0 h1 h2 h3,
    connect 0 3 4 true ex_heap_selected = Ok h0
    ∧ Circuit.component_instances (circuits h0 0) = [0; 1]
    ∧ Circuit.connections (circuits h0 0) = [0]
    ∧ delete_selected_component_states 0 h0 = Ok [h1; h2; h3]
    ∧ Circuit.component_instances (circuits h1 0) = [1]
    ∧ Circuit.connections (circuits h1 0) = [0]
    ∧ Port.connections_out (ports h1 3) = [0]
    ∧ Port.connections_in (ports h1 4) = [0]
    ∧ Circuit.component_instances (circuits h2 0) = [1]
    ∧ Circuit.connections (circuits h2 0) = []
    ∧ Port.connections_out (ports h2 3) = []
    ∧ Port.connections_in (ports h2 4) = [].
Proof.
  exists (run (connect 0 3 4 true ex_heap_selected)).
  exists (nth 0 (run_states (delete_selected_component_states 0
                   (run (connect 0 3 4 true ex_heap_selected)))) ex_heap).
  exists (nth 1 (run_states (delete_selected_component_states 0
                   (run (connect 0 3 4 true ex_heap_selected)))) ex_heap).
  exists (nth 2 (run_states (delete_selected_component_states 0
                   (run (connect 0 3 4 true ex_heap_selected)))) ex_heap).
  evaluate.
Qed.

(** C9 (amended): deleting the selected instance [c] of circuit [k] first
    takes [c] out of the circuit's instance list, leaving every connection
    in place, and then removes every connection in the adjacency lists of
    the ports of [c], and last clears the selection.  Afterwards every port
    of [c] has empty [connections_in] and [connections_out], the circuit's
    connection list is the old one without the connections that touched [c]
    (so it has shrunk by exactly their number), and no connection of any
    circuit touches [c]. *)
Theorem C9_delete_selected_component h k c :
  reachable h →
  Circuit.selected_element (circuits h k) = Some (OOwner (OI c)) →
  c ∈ Circuit.component_instances (circuits h k) →
  NoDup ((λ ci, ComponentInstance.name (insts h ci))
           <$> Circuit.component_instances (circuits h k)) →
  ∃ h1 h2 h3,
    delete_selected_component_states k h = Ok [h1; h2; h3]
    ∧ delete_selected_component k h = Ok h3
    ∧ Circuit.component_instances (circuits h1 k) =
        filter (λ comp, comp ≠ c) (Circuit.component_instances (circuits h k))
    ∧ Circuit.connections (circuits h1 k) = Circuit.connections (circuits h k)
    ∧ (∀ q, Port.connections_in (ports h1 q) = Port.connections_in (ports h q)
            ∧ Port.connections_out (ports h1 q) = Port.connections_out (ports h q))
    ∧ Circuit.component_instances (circuits h3 k) =
        filter (λ comp, comp ≠ c) (Circuit.component_instances (circuits h k))
    ∧ Circuit.selected_element (circuits h3 k) = None
    ∧ (∀ p, p ∈ ComponentInstance.ports (insts h c) →
            Port.connections_in (ports h3 p) = []
            ∧ Port.connections_out (ports h3 p) = [])
    ∧ Circuit.connections (circuits h3 k) =
        filter (λ cc, ¬ touches h c cc) (Circuit.connections (circuits h k))
    ∧ length (Circuit.connections (circuits h3 k))
      + length (filter (touches h c) (Circuit.connections (circuits h k)))
      = length (Circuit.connections (circuits h k))
    ∧ (∀ k' cc, cc ∈ Circuit.connections (circuits h3 k') → ¬ touches h3 c cc).
Proof.
  intros Hr Hsel Hin Hnd. pose proof (reachable_consistent h Hr) as Hh.
  set (new := filter (λ comp, comp ≠ c) (Circuit.component_instances (circuits h k))).
  set (h0 := upd_circuit (Circuit.with_component_instances new) k h).
  set (h1 := adopt k new h0).
  assert (E1 : set_component_instances k new h = Ok h1).
  { unfold set_component_instances. fold h0. rewrite bool_decide_eq_true_2; [done|].
    assert (Hsub : sublist new (Circuit.component_instances (circuits h k)))
      by apply sublist_filter.
    apply (sublist_NoDup _ _ Hnd). by apply fmap_sublist. }
  destruct (adopt_wiring k new h0) as (Wp & Wc & Wk & Wn & _).
  fold h1 in Wp, Wc, Wk, Wn.
  change (ports h0) with (ports h) in Wp.
  change (conns h0) with (conns h) in Wc.
  change (next_conn h0) with (next_conn h) in Wn.
  assert (Hk1 : ∀ k', Circuit.connections (circuits h1 k')
                      = Circuit.connections (circuits h k')).
  { intros k'. rewrite Wk. unfold h0. rewrite circuits_upd_circuit.
    by case_decide; subst. }
  assert (Hh1 : consistent h1) by by apply (consistent_same_wiring h).
  assert (Hports : ComponentInstance.ports (insts h1 c) = ComponentInstance.ports (insts h c)).
  { unfold h1. by rewrite (proj1 (adopt_insts k new h0 c)). }
  destruct (remove_port_connections_purges (ComponentInstance.ports (insts h1 c)) h1 Hh1)
    as (X & h2 & E2 & Hp & Hempty & HX).
  set (h3 := upd_circuit (Circuit.with_selected_element None) k h2).
  assert (Hinst1 : Circuit.component_instances (circuits h1 k) = new).
  { rewrite Wk. unfold h0. rewrite circuits_upd_circuit, decide_True by done. done. }
  assert (Hk3 : ∀ k', Circuit.connections (circuits h3 k')
                      = filter (λ x, x ∉ X) (Circuit.connections (circuits h k'))).
  { intros k'. unfold h3. rewrite circuits_upd_circuit.
    case_decide; subst; cbn; by rewrite (purged_circuit _ _ _ Hp), Hk1. }
  assert (Hc3 : ∀ cc, conns h3 cc = conns h cc).
  { intros cc. cbn. by rewrite (purged_conns _ _ _ Hp), Wc. }
  assert (Hi3 : ComponentInstance.ports (insts h3 c) = ComponentInstance.ports (insts h c)).
  { cbn. by rewrite (purged_insts _ _ _ Hp). }
  assert (Htouch3 : ∀ cc, touches h3 c cc ↔ touches h c cc).
  { intros cc. unfold touches. by rewrite Hi3, Hc3. }
  assert (HXt : ∀ cc k', cc ∈ Circuit.connections (circuits h k') →
                         (cc ∉ X ↔ ¬ touches h c cc)).
  { intros cc k' Hcc. split.
    - intros HnX Ht. apply HnX. unfold touches in Ht.
      apply Exists_exists in Ht as (p & Hp_in & [Hs|Ht]).
      + pose proof (live_out h Hh cc k' p Hcc Hs) as Hmem.
        destruct (Hempty p) as [_ Hout]; [by rewrite Hports|].
        rewrite (purged_out _ _ _ Hp), Wp in Hout.
        destruct (decide (cc ∈ X)) as [|Hn]; [done|].
        assert (Hf : cc ∈ filter (λ x, x ∉ X) (Port.connections_out (ports h p)))
          by by apply list_elem_of_filter.
        rewrite Hout in Hf. by apply elem_of_nil in Hf.
      + pose proof (live_in h Hh cc k' p Hcc Ht) as Hmem.
        destruct (Hempty p) as [Hin' _]; [by rewrite Hports|].
        rewrite (purged_in _ _ _ Hp), Wp in Hin'.
        destruct (decide (cc ∈ X)) as [|Hn]; [done|].
        assert (Hf : cc ∈ filter (λ x, x ∉ X) (Port.connections_in (ports h p)))
          by by apply list_elem_of_filter.
        rewrite Hin' in Hf. by apply elem_of_nil in Hf.
    - intros Hnt HxX. apply Hnt.
      destruct (HX cc HxX) as (p & Hp_in & Hmem).
      rewrite Hports in Hp_in. rewrite Wp in Hmem.
      apply Exists_exists. exists p. split; [done|].
      destruct Hmem as [Hm|Hm];
        [right; by apply (in_target h Hh)|left; by apply (out_source h Hh)]. }
  exists h1, h2, h3.
  assert (Estates : delete_selected_component_states k h = Ok [h1; h2; h3]).
  { unfold delete_selected_component_states. rewrite Hsel.
    rewrite bool_decide_eq_true_2 by done. cbn [negb]. fold new.
    unfold mbind, res_bind. rewrite E1, E2. done. }
  split; [done|].
  split. { unfold delete_selected_component, mbind, res_bind. by rewrite Estates. }
  split; [done|]. split; [apply Hk1|].
  split. { intros q. by rewrite Wp. }
  split.
  { unfold h3. rewrite circuits_upd_circuit, decide_True by done. cbn.
    by rewrite (proj1 (proj2 (proj2 (purged_circuit_rest _ _ _ Hp k)))). }
  split. { unfold h3. by rewrite circuits_upd_circuit, decide_True. }
  split. { intros p Hp_in. apply Hempty. by rewrite Hports. }
  assert (Hfinal : Circuit.connections (circuits h3 k) =
            filter (λ cc, ¬ touches h c cc) (Circuit.connections (circuits h k))).
  { rewrite Hk3. apply filter_ext_in. intros cc Hcc. by apply (HXt cc k). }
  split; [done|].
  split. { rewrite Hfinal. apply length_filter_complement. }
  intros k' cc. rewrite Hk3, list_elem_of_filter, Htouch3. intros [HnX Hcc].
  by apply (HXt cc k').
Qed.

Lemma ex_heap_selected_reachable : reachable (run (connect 0 3 4 true ex_heap_selected)).
Proof.
  apply (reach_connect ex_heap_selected 0 3 4 true); [apply reach_init|reflexivity].
  split; [done|]. split.
  - intros p. do 9 (destruct p as [|p]; [done|]). done.
  - intros k. destruct k as [|k]; done.
Qed.

Lemma C9_delete_selected_component_witness :
  ∃ h3,
    delete_selected_component 0 (run (connect 0 3 4 true ex_heap_selected)) = Ok h3
    ∧ Circuit.component_instances (circuits h3 0) = [1]
    ∧ Circuit.selected_element (circuits h3 0) = None
    ∧ Circuit.connections (circuits h3 0) = []
    ∧ Port.connections_out (ports h3 3) = [].
Proof.
  destruct (C9_delete_selected_component
              (run (connect 0 3 4 true ex_heap_selected)) 0 0
              ex_heap_selected_reachable)
    as (h1 & h2 & h3 & _ & E & _ & _ & _ & Hi & Hs & Hp & Hc & _).
  { reflexivity. }
  { vm_compute. left. }
  { vm_compute. apply NoDup_cons. split; [by intros [= ]%list_elem_of_singleton|].
    apply NoDup_singleton. }
  exists h3. split; [done|]. split; [done|]. split; [done|]. split; [done|].
  apply (Hp 3). vm_compute. right. left.
Defined.

(** ** Circuit.get_nets *)

(** C1, as stated, fails: circuit 0 has the three qualifying ports 6, 7, 8
    of the non-causal domain 1, none of them connected, and [get_nets]
    returns the empty list, not three singleton nets. *)
Lemma C1_isolated_ports_not_reported :
  Domain.causal (domains ex_heap 1) = false
  ∧ all_ports ex_heap 0 1 = [6; 7; 8]
  ∧ Circuit.connections (circuits ex_heap 0) = []
  ∧ get_nets ex_heap 0 1 = Ok [].
Proof. evaluate. Qed.

(** [get_nets] on connected ports: the external [Control] and the two
    instances' [Control] ports chained into one net, listed by index. *)
Lemma get_nets_example :
  get_nets (run (connect 0 7 6 true (run (connect 0 8 7 true ex_heap)))) 0 1
  = Ok [[6; 7; 8]].
Proof. vm_compute. reflexivity. Qed.

(** With ports 6 and 7 connected, port 8 of the same domain is left out. *)
Lemma get_nets_example_isolated :
  get_nets (run (connect 0 7 6 true ex_heap)) 0 1 = Ok [[6; 7]].
Proof. vm_compute. reflexivity. Qed.

Lemma rtsc_mono {A} (R R' : relation A) x y :
  (∀ a b, R a b → R' a b) → rtsc R x y → rtsc R' x y.
Proof.
  intros HR. induction 1 as [|a b c [Hab|Hab] _ IH]; [done| |];
    (etrans; [|exact IH]); [apply rtsc_lr|apply rtsc_rl]; auto.
Qed.

Lemma wired_ends h k domain p :
  wired h k domain p ↔ ∃ q, sc (joins h k domain) p q.
Proof.
  split.
  - intros (c & s & t & Hc & Hs & Ht & Ds & Dt & [->| ->]).
    + exists t. left. by exists c.
    + exists s. right. by exists c.
  - intros (q & [(c & Hc & Hs & Ht & Ds & Dt)|(c & Hc & Hs & Ht & Ds & Dt)]);
      exists c; eauto 10.
Qed.

Lemma for_each_skipped {A S} (body : S → A → res S) (s : S) (l : list A) :
  (∀ a, a ∈ l → body s a = Ok s) → for_each body s l = Ok s.
Proof.
  induction l as [|a l IH]; intros Hl; [done|].
  cbn [for_each]. rewrite Hl by left. cbn. apply IH. intros; apply Hl; by right.
Qed.

(** [init_nets] by its last element. *)
Lemma init_nets_snoc l x :
  init_nets (l ++ [x]) = <[x := (length l, {[x]})]> (init_nets l).
Proof.
  unfold init_nets. rewrite imap_app, foldl_app. cbn.
  by rewrite Nat.add_0_r.
Qed.

Lemma init_nets_lookup l p kk (S : gset nat) :
  init_nets l !! p = Some (kk, S) → S = {[p]} ∧ l !! kk = Some p.
Proof.
  revert p kk S. induction l as [|x l IH] using rev_ind; intros p kk S.
  { unfold init_nets. cbn. by rewrite lookup_empty. }
  rewrite init_nets_snoc.
  intros [[-> [= <- <-]]|[_ Hl]]%lookup_insert_Some.
  - split; [done|]. by rewrite lookup_app_r, Nat.sub_diag.
  - destruct (IH _ _ _ Hl) as [-> Hkk]. split; [done|].
    by apply lookup_app_l_Some.
Qed.

Lemma init_nets_is_Some l p : p ∈ l → is_Some (init_nets l !! p).
Proof.
  induction l as [|x l IH] using rev_ind; [by intros ?%elem_of_nil|].
  rewrite init_nets_snoc, lookup_insert_is_Some'.
  intros [Hp| ->%list_elem_of_singleton]%elem_of_app; auto.
Qed.

Lemma init_nets_ok l : nets_ok (λ _ _, False) (init_nets l, ∅).
Proof.
  split; cbn [fst snd].
  - intros p kk S [-> _]%init_nets_lookup. by apply elem_of_singleton.
  - intros p q kk S Hp Hq. destruct (init_nets_lookup _ _ _ _ Hp) as [-> _].
    by apply elem_of_singleton in Hq as ->.
  - intros p q kk S S' [-> Hp]%init_nets_lookup [-> Hq]%init_nets_lookup.
    congruence.
  - intros kk S Hl. by rewrite lookup_empty in Hl.
  - done.
  - intros p q kk S [-> _]%init_nets_lookup ->%elem_of_singleton. done.
  - intros p kk S [-> _]%init_nets_lookup x ->%elem_of_singleton. by left.
  - intros kk S Hl. by rewrite lookup_empty in Hl.
Qed.

Lemma nets_ok_iff (E E' : relation nat) st :
  (∀ x y, E x y ↔ E' x y) → nets_ok E st → nets_ok E' st.
Proof.
  intros HE [Hself Hagree Hkey Hby Hedge Hlinked Hends Hendsby].
  assert (Hsc : ∀ x y, sc E x y → sc E' x y).
  { intros x y [?|?]; [left|right]; by apply HE. }
  split; try done.
  - intros s t Hst. apply Hedge. by apply HE.
  - intros p q kk S Hp Hq. apply (rtsc_mono E); [intros; by apply HE|eauto].
  - intros p kk S Hp x Hx. destruct (Hends p kk S Hp x Hx) as [|[y Hy]]; eauto.
  - intros kk S Hl x Hx. destruct (Hendsby kk S Hl x Hx) as [y Hy]; eauto.
Qed.

Lemma set_fold_insert_lookup (v : nat * gset nat) (nets : gmap nat (nat * gset nat))
    (X : gset nat) p :
  set_fold (λ pp nets, <[pp := v]> nets) nets X !! p
  = if decide (p ∈ X) then Some v else nets !! p.
Proof.
  revert p.
  refine (set_fold_ind_L
            (λ r (Y : gset nat),
               ∀ p, r !! p = if decide (p ∈ Y) then Some v else nets !! p)
            _ _ _ _ X).
  - intros p. by rewrite decide_False by apply not_elem_of_empty.
  - intros x Y r Hx IH p. rewrite lookup_insert, IH.
    destruct (decide (x = p)) as [->|Hne].
    + by rewrite decide_True by (apply elem_of_union; left; by apply elem_of_singleton).
    + destruct (decide (p ∈ Y)).
      * by rewrite decide_True by (apply elem_of_union; by right).
      * rewrite decide_False; [done|].
        rewrite elem_of_union, elem_of_singleton. intros [?|?]; congruence.
Qed.

(** The entry of [nets_by_nk] after the two updates of the loop body. *)
Lemma nets_by_nk_lookup (nets_by_nk : gmap nat (gset nat)) ns nt (clique : gset nat) kk :
  (if bool_decide (ns ≠ nt)
      && bool_decide (is_Some (<[ns `min` nt := clique]> nets_by_nk !! (ns `max` nt)))
   then delete (ns `max` nt) (<[ns `min` nt := clique]> nets_by_nk)
   else <[ns `min` nt := clique]> nets_by_nk) !! kk
  = if decide (kk = ns `min` nt) then Some clique
    else if decide (ns ≠ nt ∧ kk = ns `max` nt) then None
    else nets_by_nk !! kk.
Proof.
  case_bool_decide as Hne; cbn [andb].
  - case_bool_decide as Hma.
    + rewrite lookup_delete, lookup_insert. repeat case_decide; (done || lia || tauto).
    + rewrite lookup_insert. repeat case_decide; try (done || lia || tauto).
      destruct_and!. subst kk. rewrite lookup_insert_ne in Hma by lia.
      by apply eq_None_not_Some.
  - rewrite lookup_insert. repeat case_decide; (done || lia || tauto).
Qed.

(** The loop body on a connection that joins [s] to [t]: the two cliques
    are merged under the smaller key. *)
Lemma nets_merge_ok (E E' : relation nat) nets nets_by_nk s t ns pss nt pts :
  nets_ok E (nets, nets_by_nk) →
  nets !! s = Some (ns, pss) → nets !! t = Some (nt, pts) →
  (∀ x y, E' x y ↔ E x y ∨ (x = s ∧ y = t)) →
  nets_ok E'
    (set_fold (λ pp nets, <[pp := (ns `min` nt, pss ∪ pts)]> nets) nets (pss ∪ pts),
     if bool_decide (ns ≠ nt)
        && bool_decide (is_Some (<[ns `min` nt := pss ∪ pts]> nets_by_nk !! (ns `max` nt)))
     then delete (ns `max` nt) (<[ns `min` nt := pss ∪ pts]> nets_by_nk)
     else <[ns `min` nt := pss ∪ pts]> nets_by_nk).
Proof.
  intros [Hself Hagree Hkey Hby Hedge Hlinked Hends Hendsby] Es Et HE'.
  cbn [fst snd] in *.
  assert (Hs_in : ∀ x, x ∈ pss → nets !! x = Some (ns, pss)).
  { intros x Hx. by apply (Hagree s x). }
  assert (Ht_in : ∀ x, x ∈ pts → nets !! x = Some (nt, pts)).
  { intros x Hx. by apply (Hagree t x). }
  assert (Hs_key : ∀ x S, nets !! x = Some (ns, S) → x ∈ pss).
  { intros x S Hx. rewrite <-(Hkey x s ns S pss Hx Es). by apply (Hself x ns). }
  assert (Ht_key : ∀ x S, nets !! x = Some (nt, S) → x ∈ pts).
  { intros x S Hx. rewrite <-(Hkey x t nt S pts Hx Et). by apply (Hself x nt). }
  assert (Hout : ∀ x kk S, x ∉ pss ∪ pts → nets !! x = Some (kk, S) →
                           kk ≠ ns ∧ kk ≠ nt).
  { intros x kk S Hx Hl. split; intros ->; apply Hx, elem_of_union;
      [left; by apply (Hs_key x S)|right; by apply (Ht_key x S)]. }
  assert (Hsub : ∀ x y, E x y → E' x y) by (intros; apply HE'; by left).
  assert (Hsc : ∀ x y, sc E x y → sc E' x y).
  { intros x y [?|?]; [left|right]; by apply Hsub. }
  assert (Hst : E' s t) by (apply HE'; by right).
  assert (Hs_cl : s ∈ pss ∪ pts) by (apply elem_of_union; left; by apply (Hself s ns)).
  assert (Ht_cl : t ∈ pss ∪ pts) by (apply elem_of_union; right; by apply (Hself t nt)).
  assert (Hcl_linked : ∀ x, x ∈ pss ∪ pts → rtsc E' s x).
  { intros x [Hx|Hx]%elem_of_union.
    - apply (rtsc_mono E); [done|]. by apply (Hlinked s x ns pss).
    - etrans; [apply rtsc_lr, Hst|].
      apply (rtsc_mono E); [done|]. by apply (Hlinked t x nt pts). }
  assert (Hcl_ends : ∀ x, x ∈ pss ∪ pts → ∃ y, sc E' x y).
  { intros x [Hx|Hx]%elem_of_union.
    - destruct (Hends s ns pss Es x Hx) as [->|[y Hy]]; [exists t; by left|eauto].
    - destruct (Hends t nt pts Et x Hx) as [->|[y Hy]]; [exists s; by right|eauto]. }
  split; cbn [fst snd].
  - intros p kk S. rewrite set_fold_insert_lookup.
    case_decide; [by intros [= <- <-]|]. apply Hself.
  - intros p q kk S. rewrite !set_fold_insert_lookup.
    destruct (decide (p ∈ pss ∪ pts)) as [Hp|Hp].
    + intros [= <- <-] Hq. by rewrite decide_True.
    + intros Hl Hq. pose proof (Hagree p q kk S Hl Hq) as Hq2.
      rewrite decide_False; [done|].
      intros [Hq'|Hq']%elem_of_union;
        [apply Hs_in in Hq'|apply Ht_in in Hq']; rewrite Hq' in Hq2;
        injection Hq2 as <- <-; apply Hp, elem_of_union;
        [left; by apply (Hself p ns)|right; by apply (Hself p nt)].
  - intros p q kk S S'. rewrite !set_fold_insert_lookup.
    destruct (decide (p ∈ pss ∪ pts)) as [Hp|Hp],
             (decide (q ∈ pss ∪ pts)) as [Hq|Hq].
    + by intros [= <- <-] [= <-].
    + intros [= <- <-] Hl. destruct (Hout q _ S' Hq Hl). lia.
    + intros Hl [= <- <-]. destruct (Hout p _ S Hp Hl). lia.
    + apply Hkey.
  - intros kk S. rewrite nets_by_nk_lookup.
    destruct (decide (kk = ns `min` nt)) as [->|Hk].
    { intros [= <-]. exists s. by rewrite set_fold_insert_lookup, decide_True. }
    destruct (decide (ns ≠ nt ∧ kk = ns `max` nt)) as [|Hnd]; [done|].
    intros Hl. destruct (Hby kk S Hl) as (p & Hp). exists p.
    rewrite set_fold_insert_lookup, decide_False; [done|].
    intros [Hp'|Hp']%elem_of_union;
      [apply Hs_in in Hp'|apply Ht_in in Hp']; rewrite Hp in Hp';
      injection Hp' as -> ->; lia.
  - intros x y [Hxy|[-> ->]]%HE'.
    + destruct (Hedge x y Hxy) as (kk & S & Hx & Hy & Hb).
      destruct (decide (x ∈ pss ∪ pts)) as [Hc|Hc].
      * exists (ns `min` nt), (pss ∪ pts).
        rewrite set_fold_insert_lookup, decide_True by done.
        split; [done|]. split.
        -- apply elem_of_union in Hc as [Hc|Hc];
             [apply Hs_in in Hc|apply Ht_in in Hc]; rewrite Hx in Hc;
             injection Hc as -> ->; apply elem_of_union; auto.
        -- by rewrite nets_by_nk_lookup, decide_True.
      * exists kk, S. rewrite set_fold_insert_lookup, decide_False by done.
        split; [done|]. split; [done|].
        destruct (Hout x kk S Hc Hx).
        rewrite nets_by_nk_lookup, decide_False by lia.
        by rewrite decide_False by lia.
    + exists (ns `min` nt), (pss ∪ pts).
      rewrite set_fold_insert_lookup, decide_True by done.
      split; [done|]. split; [done|].
      by rewrite nets_by_nk_lookup, decide_True.
  - intros p q kk S. rewrite set_fold_insert_lookup. case_decide as Hp.
    + intros [= <- <-] Hq. etrans; [symmetry; by apply Hcl_linked|by apply Hcl_linked].
    + intros Hl Hq. apply (rtsc_mono E); [done|]. by apply (Hlinked p q kk S).
  - intros p kk S. rewrite set_fold_insert_lookup. case_decide.
    + intros [= <- <-] x Hx. right. by apply Hcl_ends.
    + intros Hl x Hx. destruct (Hends p kk S Hl x Hx) as [|[y Hy]]; eauto.
  - intros kk S. rewrite nets_by_nk_lookup.
    destruct (decide (kk = ns `min` nt)); [by intros [= <-]|].
    destruct (decide (ns ≠ nt ∧ kk = ns `max` nt)); [done|].
    intros Hl x Hx. destruct (Hendsby kk S Hl x Hx) as [y Hy]; eauto.
Qed.

Section nets.
Context (h : Heap) (domain : nat).

Lemma joined_by_snoc l c s t :
  joined_by h domain (l ++ [c]) s t ↔
  joined_by h domain l s t
  ∨ (Connection.source (conns h c) = Some s
     ∧ Connection.target (conns h c) = Some t
     ∧ Port.domain (ports h s) = Some domain
     ∧ Port.domain (ports h t) = Some domain).
Proof.
  unfold joined_by. split.
  - intros (c' & [Hc| ->%list_elem_of_singleton]%elem_of_app & H); [left; eauto|by right].
  - intros [(c' & Hc & H)|H].
    + exists c'. split; [apply elem_of_app; auto|done].
    + exists c. split; [|done]. apply elem_of_app. right. by apply list_elem_of_singleton.
Qed.

(** One pass through the loop body keeps the invariant, for the connections
    joined so far and the one just seen. *)
Lemma nets_step_ok l st st' c :
  nets_ok (joined_by h domain l) st →
  nets_step h domain st c = Ok st' →
  nets_ok (joined_by h domain (l ++ [c])) st'.
Proof.
  intros Hst. destruct st as [nets nets_by_nk].
  unfold nets_step, mbind, res_bind, attr.
  destruct (Connection.source (conns h c)) as [s|] eqn:Hs; [|done].
  case_decide as Hds.
  { intros [= <-]. apply (nets_ok_iff (joined_by h domain l)); [|done].
    intros x y. rewrite joined_by_snoc. split; [auto|].
    intros [?|(Hx & _ & Dx & _)]; [done|]. congruence. }
  destruct (Connection.target (conns h c)) as [t|] eqn:Ht; [|done].
  case_decide as Hdt.
  { intros [= <-]. apply (nets_ok_iff (joined_by h domain l)); [|done].
    intros x y. rewrite joined_by_snoc. split; [auto|].
    intros [?|(_ & Hy & _ & Dy)]; [done|]. congruence. }
  unfold getitem. destruct (nets !! s) as [[ns pss]|] eqn:Es; [|done].
  destruct (nets !! t) as [[nt pts]|] eqn:Et; [|done].
  intros Heq.
  assert (Hst' : st' =
    (set_fold (λ pp nets, <[pp := (ns `min` nt, pss ∪ pts)]> nets) nets (pss ∪ pts),
     if bool_decide (ns ≠ nt)
        && bool_decide (is_Some (<[ns `min` nt := pss ∪ pts]> nets_by_nk !! (ns `max` nt)))
     then delete (ns `max` nt) (<[ns `min` nt := pss ∪ pts]> nets_by_nk)
     else <[ns `min` nt := pss ∪ pts]> nets_by_nk)).
  { destruct (_ && _); by injection Heq as <-. }
  rewrite Hst'. apply (nets_merge_ok (joined_by h domain l) _ nets nets_by_nk s t);
    try done.
  intros x y. rewrite joined_by_snoc. split; (intros [?|H]; [by left|right]).
  - destruct H as (Hx & Hy & _). split; congruence.
  - by destruct H as [-> ->].
Qed.

Lemma for_each_nets_ok l2 l1 st st' :
  nets_ok (joined_by h domain l1) st →
  for_each (nets_step h domain) st l2 = Ok st' →
  nets_ok (joined_by h domain (l1 ++ l2)) st'.
Proof.
  revert l1 st. induction l2 as [|c l2 IH]; intros l1 st Hst; cbn [for_each].
  { intros [= <-]. by rewrite app_nil_r. }
  unfold mbind, res_bind.
  destruct (nets_step h domain st c) as [st1|] eqn:E1; [|done].
  intros E2. rewrite cons_middle, (assoc_L (++)).
  apply (IH _ st1); [|done]. by apply (nets_step_ok l1 st).
Qed.

(** The loop body returns when the ends it looks up are keys of [nets], and
    it keeps the keys. *)
Lemma nets_step_total (P : nat → Prop) st c s t :
  (∀ p, P p → is_Some (st.1 !! p)) →
  Connection.source (conns h c) = Some s →
  Connection.target (conns h c) = Some t →
  (Port.domain (ports h s) = Some domain → Port.domain (ports h t) = Some domain →
   P s ∧ P t) →
  ∃ st', nets_step h domain st c = Ok st' ∧ (∀ p, P p → is_Some (st'.1 !! p)).
Proof.
  intros Hkeys Hs Ht HP. destruct st as [nets nets_by_nk]. cbn [fst] in Hkeys.
  unfold nets_step, mbind, res_bind, attr. rewrite Hs.
  case_decide as Hds; [by eexists|]. rewrite Ht.
  case_decide as Hdt; [by eexists|].
  destruct (HP Hds Hdt) as [Ps Pt].
  destruct (Hkeys s Ps) as [[ns pss] Es]. destruct (Hkeys t Pt) as [[nt pts] Et].
  unfold getitem. rewrite Es, Et.
  assert (Hkeys' : ∀ p, P p → is_Some
    (set_fold (λ pp nets, <[pp := (ns `min` nt, pss ∪ pts)]> nets) nets (pss ∪ pts) !! p)).
  { intros p Pp. rewrite set_fold_insert_lookup. case_decide; [by eexists|auto]. }
  destruct (_ && _); eexists; (split; [reflexivity|exact Hkeys']).
Qed.

Lemma for_each_nets_total (P : nat → Prop) l st :
  (∀ p, P p → is_Some (st.1 !! p)) →
  (∀ c, c ∈ l →
     ∃ s t, Connection.source (conns h c) = Some s
       ∧ Connection.target (conns h c) = Some t
       ∧ (Port.domain (ports h s) = Some domain →
          Port.domain (ports h t) = Some domain → P s ∧ P t)) →
  ∃ st', for_each (nets_step h domain) st l = Ok st'.
Proof.
  revert st. induction l as [|c l IH]; intros st Hkeys Hl; cbn [for_each].
  { by eexists. }
  destruct (Hl c) as (s & t & Hs & Ht & HP); [left|].
  destruct (nets_step_total P st c s t Hkeys Hs Ht HP) as (st1 & E1 & Hkeys1).
  unfold mbind, res_bind. rewrite E1. apply IH; [done|].
  intros c' Hc'. apply Hl. by right.
Qed.
End nets.

(** The output list of [get_nets], read off [nets_by_nk]. *)
Section output.
Context (R : relation nat) `{!∀ p q, Decision (R p q)}.
Context (nets_by_nk : gmap nat (gset nat)).

Lemma output_net net :
  net ∈ (λ kk, merge_sort R (elements (nets_by_nk !!! kk)))
          <$> merge_sort (≤) (elements (dom nets_by_nk))
  ↔ ∃ kk (S : gset nat),
      nets_by_nk !! kk = Some S ∧ net = merge_sort R (elements S).
Proof.
  rewrite list_elem_of_fmap. split.
  - intros (kk & -> & Hkk).
    rewrite merge_sort_Permutation, elem_of_elements, elem_of_dom in Hkk.
    destruct Hkk as [S HS]. exists kk, S. split; [done|].
    by rewrite (lookup_total_correct _ _ _ HS).
  - intros (kk & S & HS & ->). exists kk.
    rewrite (lookup_total_correct _ _ _ HS). split; [done|].
    rewrite merge_sort_Permutation, elem_of_elements, elem_of_dom. by eexists.
Qed.

Lemma output_lookup i net :
  ((λ kk, merge_sort R (elements (nets_by_nk !!! kk)))
     <$> merge_sort (≤) (elements (dom nets_by_nk))) !! i = Some net →
  ∃ kk (S : gset nat),
    merge_sort (≤) (elements (dom nets_by_nk)) !! i = Some kk
    ∧ nets_by_nk !! kk = Some S ∧ net = merge_sort R (elements S).
Proof.
  intros (kk & -> & Hi)%list_lookup_fmap_Some.
  assert (Hkk : kk ∈ merge_sort (≤) (elements (dom nets_by_nk))).
  { apply list_elem_of_lookup. by exists i. }
  rewrite merge_sort_Permutation, elem_of_elements, elem_of_dom in Hkk.
  destruct Hkk as [S HS]. exists kk, S.
  by rewrite (lookup_total_correct _ _ _ HS).
Qed.

Lemma output_member (S : gset nat) p : p ∈ merge_sort R (elements S) ↔ p ∈ S.
Proof. by rewrite merge_sort_Permutation, elem_of_elements. Qed.

Lemma output_keys_NoDup : NoDup (merge_sort (≤) (elements (dom nets_by_nk))).
Proof. rewrite merge_sort_Permutation. apply NoDup_elements. Qed.

Lemma output_net_NoDup (S : gset nat) : NoDup (merge_sort R (elements S)).
Proof. rewrite merge_sort_Permutation. apply NoDup_elements. Qed.
End output.

Lemma key_le_total (f : nat → option nat) p q :
  key_le (f p) (f q) ∨ key_le (f q) (f p).
Proof. destruct (f p), (f q); cbn; (lia || auto). Qed.

(** An index of [nets_index] is a position of the port in the enumeration. *)
Lemma nets_index_lookup h k domain p i :
  nets_index h k domain !! p = Some i → all_ports h k domain !! i = Some p.
Proof.
  unfold nets_index. rewrite lookup_fmap.
  destruct (init_nets (all_ports h k domain) !! p) as [[kk S]|] eqn:E; [|done].
  intros [= <-]. by destruct (init_nets_lookup _ _ _ _ E).
Qed.

(** [get_nets] returns what the loop leaves in [nets_by_nk], and the loop
    leaves the invariant for all the connections of the circuit. *)
Lemma get_nets_spec h k domain nets :
  get_nets h k domain = Ok nets →
  ∃ st,
    nets_ok (joins h k domain) st
    ∧ nets = (λ kk, merge_sort (λ p q, key_le (nets_index h k domain !! p)
                                           (nets_index h k domain !! q))
                      (elements (st.2 !!! kk)))
               <$> merge_sort (≤) (elements (dom st.2)).
Proof.
  unfold get_nets, mbind, res_bind.
  destruct (for_each _ _ _) as [[nets' nets_by_nk]|] eqn:E; [|done].
  intros [= <-]. exists (nets', nets_by_nk). split; [|done].
  apply (for_each_nets_ok h domain _ []) in E; [exact E|].
  apply (nets_ok_iff (λ _ _, False)); [|apply init_nets_ok].
  intros x y. split; [done|]. intros (c & Hc & _). by apply elem_of_nil in Hc.
Qed.

(** C1 (amended): [get_nets] reports the connected ports, grouped into
    nets, and only those.  In a heap the public operations on connections
    lead to, whenever [get_nets] returns: a port is in a net of the output
    exactly when it is an end of a connection of the circuit that has both
    ends in the domain; the two ends of such a connection are in one net; a
    net holds, with one of its ports, exactly the ports linked to it by a
    chain of such connections; no port is in two nets, or twice in one; every
    net lists its ports by enumeration index;
    and a port with no connections is in no net.  [get_nets] does return when
    the ends of those connections are among the ports it enumerates.  When no
    port of the domain has a connection the output is the empty list,
    whatever the number of qualifying ports. *)
Theorem C1_get_nets_reports_connected_ports_only h k domain :
  reachable h →
  (∀ nets, get_nets h k domain = Ok nets →
     (∀ p, (∃ net, net ∈ nets ∧ p ∈ net) ↔ wired h k domain p)
     ∧ (∀ s t, joins h k domain s t → ∃ net, net ∈ nets ∧ s ∈ net ∧ t ∈ net)
     ∧ (∀ net p q, net ∈ nets → p ∈ net → (q ∈ net ↔ linked h k domain p q))
     ∧ (∀ i j net net' p, nets !! i = Some net → nets !! j = Some net' →
                          p ∈ net → p ∈ net' → i = j)
     ∧ (∀ net, net ∈ nets →
          NoDup net
          ∧ Sorted (λ p q, key_le (nets_index h k domain !! p)
                                  (nets_index h k domain !! q)) net)
     ∧ (∀ p, Port.connections_in (ports h p) = [] →
             Port.connections_out (ports h p) = [] →
             ∀ net, net ∈ nets → p ∉ net))
  ∧ (Forall (ends_enumerated h k domain) (Circuit.connections (circuits h k)) →
     ∃ nets, get_nets h k domain = Ok nets)
  ∧ ((∀ p, Port.domain (ports h p) = Some domain →
           Port.connections_in (ports h p) = []
           ∧ Port.connections_out (ports h p) = []) →
     get_nets h k domain = Ok []).
Proof.
  intros Hr. pose proof (reachable_consistent h Hr) as Hh. split; [|split].
  - intros nets Hnets.
    destruct (get_nets_spec h k domain nets Hnets) as ([nets' nets_by_nk] & Hok & ->).
    destruct Hok as [Hself Hagree Hkey Hby Hedge Hlinked Hends Hendsby].
    cbn [fst snd] in *.
    assert (Hrep : ∀ p, (∃ net,
        net ∈ (λ kk, merge_sort (λ p q, key_le (nets_index h k domain !! p)
                                              (nets_index h k domain !! q))
                         (elements (nets_by_nk !!! kk)))
                <$> merge_sort (≤) (elements (dom nets_by_nk))
        ∧ p ∈ net) ↔ wired h k domain p).
    { intros p. rewrite wired_ends. split.
      - intros (net & (kk & S & HS & ->)%output_net & Hp%output_member).
        by apply (Hendsby kk S).
      - intros (q & [Hpq|Hqp]).
        + destruct (Hedge p q Hpq) as (kk & S & Hp & Hq & Hb).
          eexists. split; [apply output_net; by exists kk, S|].
          apply output_member. by apply (Hself p kk).
        + destruct (Hedge q p Hqp) as (kk & S & Hq & Hp & Hb).
          eexists. split; [apply output_net; by exists kk, S|].
          by apply output_member. }
    split; [exact Hrep|]. split; [|split; [|split; [|split]]].
    + intros s t Hst. destruct (Hedge s t Hst) as (kk & S & Hs & Ht & Hb).
      eexists. split; [apply output_net; by exists kk, S|].
      split; apply output_member; [by apply (Hself s kk)|done].
    + intros net p q (kk & S & HS & ->)%output_net Hp%output_member.
      rewrite output_member.
      destruct (Hby kk S HS) as (p0 & Hp0).
      pose proof (Hagree p0 p kk S Hp0 Hp) as Hnp. split.
      * intros Hq. unfold linked.
        etrans; [symmetry; by apply (Hlinked p0 p kk S)|by apply (Hlinked p0 q kk S)].
      * assert (Hgen : ∀ x y, linked h k domain x y →
                              nets' !! x = Some (kk, S) → y ∈ S).
        { induction 1 as [x|x y z [Hxy|Hyx] _ IH]; intros Hx.
          - by apply (Hself x kk).
          - apply IH. destruct (Hedge x y Hxy) as (kk' & S' & Hx' & Hy & _).
            rewrite Hx in Hx'. injection Hx' as <- <-. by apply (Hagree x y).
          - apply IH. destruct (Hedge y x Hyx) as (kk' & S' & Hy & Hx' & _).
            pose proof (Hagree y x kk' S' Hy Hx') as Hx2.
            rewrite Hx in Hx2. by injection Hx2 as <- <-. }
        intros Hl. by apply (Hgen p q).
    + intros i j net net' p Hi Hj Hp Hp'.
      apply output_lookup in Hi as (ki & Si & Hki & HSi & ->).
      apply output_lookup in Hj as (kj & Sj & Hkj & HSj & ->).
      apply output_member in Hp, Hp'.
      destruct (Hby ki Si HSi) as (pi & Hpi). destruct (Hby kj Sj HSj) as (pj & Hpj).
      pose proof (Hagree pi p ki Si Hpi Hp) as H1.
      pose proof (Hagree pj p kj Sj Hpj Hp') as H2.
      rewrite H1 in H2. injection H2 as -> _.
      by apply (NoDup_lookup _ i j kj (output_keys_NoDup nets_by_nk)).
    + intros net (kk & S & HS & ->)%output_net. split; [apply output_net_NoDup|].
      apply @Sorted_merge_sort. intros p q.
      apply (key_le_total (λ x, nets_index h k domain !! x)).
    + intros p Hin Hout net Hnet Hp.
      destruct (proj1 (Hrep p)) as (c & s & t & Hc & Hs & Ht & _ & _ & [->| ->]);
        [by exists net| |].
      * pose proof (live_out h Hh c k s Hc Hs) as Hx. rewrite Hout in Hx.
        by apply elem_of_nil in Hx.
      * pose proof (live_in h Hh c k t Hc Ht) as Hx. rewrite Hin in Hx.
        by apply elem_of_nil in Hx.
  - intros Hends. unfold get_nets, mbind, res_bind.
    destruct (for_each_nets_total h domain (λ p, p ∈ all_ports h k domain)
                (Circuit.connections (circuits h k))
                (init_nets (all_ports h k domain), ∅)) as ([nets' nets_by_nk] & E).
    { intros p Hp. by apply init_nets_is_Some. }
    { intros c Hc.
      destruct (complete h Hh c (made_circuit h Hh c k Hc)) as (s & t & k' & Ec).
      exists s, t. rewrite Ec. split; [done|]. split; [done|].
      rewrite Forall_forall in Hends. specialize (Hends c Hc).
      unfold ends_enumerated in Hends. by rewrite Ec in Hends. }
    rewrite E. by eexists.
  - intros Hiso. unfold get_nets, mbind, res_bind.
    rewrite for_each_skipped; [done|].
    intros c Hc.
    destruct (complete h Hh c (made_circuit h Hh c k Hc)) as (s & t & k' & Ec).
    unfold nets_step, mbind, res_bind. rewrite Ec. cbn [Connection.source attr].
    rewrite decide_True; [done|]. intros Hd.
    destruct (Hiso s Hd) as [_ Hout].
    pose proof (live_out h Hh c k s Hc ltac:(by rewrite Ec)) as Hx.
    rewrite Hout in Hx. by apply elem_of_nil in Hx.
Qed.

Lemma ex_heap_net_reachable : reachable (run (connect 0 7 6 true ex_heap)).
Proof.
  apply (reach_connect ex_heap 0 7 6 true);
    [apply reach_init, ex_heap_unconnected|reflexivity].
Qed.

Lemma C1_get_nets_reports_connected_ports_only_witness :
  get_nets (run (connect 0 7 6 true ex_heap)) 0 1 = Ok [[6; 7]]
  ∧ (∀ p, (∃ net, net ∈ [[6; 7]] ∧ p ∈ net)
          ↔ wired (run (connect 0 7 6 true ex_heap)) 0 1 p)
  ∧ (∃ nets, get_nets (run (connect 0 7 6 true ex_heap)) 0 1 = Ok nets).
Proof.
  split; [exact get_nets_example_isolated|]. split.
  - exact (proj1 (proj1 (C1_get_nets_reports_connected_ports_only
                           _ 0 1 ex_heap_net_reachable)
                        [[6; 7]] get_nets_example_isolated)).
  - apply (proj1 (proj2 (C1_get_nets_reports_connected_ports_only
                           _ 0 1 ex_heap_net_reachable))).
    apply (proj1 (bool_decide_eq_true _)). vm_compute. reflexivity.
Defined.

(** * The editor's operations *)

(** ** What an operation leaves as it is *)

Lemma static_refl h : static h h.
Proof. by split. Qed.

Lemma static_trans h1 h2 h3 : static h1 h2 → static h2 h3 → static h1 h3.
Proof.
  intros [A1 A2 A3 A4] [B1 B2 B3 B4]. split; intros.
  - by rewrite B1, A1.
  - by rewrite B2, A2.
  - by rewrite B3, A3.
  - by apply B4, A4.
Qed.

Lemma static_same_ports h h' :
  (∀ d, domains h' d = domains h d) →
  (∀ q, Port.domain (ports h' q) = Port.domain (ports h q)
        ∧ Port.direction (ports h' q) = Port.direction (ports h q)
        ∧ Port.parent (ports h' q) = Port.parent (ports h q)) →
  static h h'.
Proof.
  intros Hd Hp. split; [done|apply Hp|apply Hp|].
  intros q. unfold is_ext. by rewrite (proj2 (proj2 (Hp q))).
Qed.

Lemma static_is_source h h' q :
  static h h' → is_source h q = true → is_source h' q = true.
Proof.
  intros [_ _ Hdir Hext]. unfold is_source. rewrite Hdir.
  rewrite !orb_true_iff, !andb_true_iff. intros [?|[? ?]]; auto.
Qed.

Lemma purged_static X h h' : purged X h h' → static h h'.
Proof.
  intros Hp. apply static_same_ports; [apply (purged_domains _ _ _ Hp)|].
  intros q. destruct (purged_port _ _ _ Hp q) as (_ & ? & ? & ?). done.
Qed.

Lemma purged_wiring X h h' : purged X h h' → wiring_purged X h h'.
Proof. intros [A1 A2 A3 A4 A5 _ _ _ _ _]. by split. Qed.

Lemma wiring_purged_refl h h' :
  (∀ q, Port.connections_out (ports h' q) = Port.connections_out (ports h q)) →
  (∀ q, Port.connections_in (ports h' q) = Port.connections_in (ports h q)) →
  (∀ k, Circuit.connections (circuits h' k) = Circuit.connections (circuits h k)) →
  (∀ c, conns h' c = conns h c) →
  next_conn h' = next_conn h →
  wiring_purged [] h h'.
Proof.
  intros Ho Hi Hk Hc Hn.
  split; try done; intros; rewrite ?Ho, ?Hi, ?Hk; symmetry; apply filter_all;
    intros; apply not_elem_of_nil.
Qed.

Lemma wiring_purged_trans X Y h h1 h2 :
  wiring_purged X h h1 → wiring_purged Y h1 h2 → wiring_purged (X ++ Y) h h2.
Proof.
  intros [A1 A2 A3 A4 A5] [B1 B2 B3 B4 B5].
  assert (Hf : ∀ l : list nat,
    filter (λ x, x ∉ Y) (filter (λ x, x ∉ X) l) = filter (λ x, x ∉ X ++ Y) l).
  { intros l. rewrite list_filter_filter. apply filter_ext_in.
    intros x _. rewrite elem_of_app. tauto. }
  split; intros.
  - by rewrite B1, A1, Hf.
  - by rewrite B2, A2, Hf.
  - by rewrite B3, A3, Hf.
  - by rewrite B4, A4.
  - by rewrite B5, A5.
Qed.

Lemma wiring_purged_consistent X h h' :
  consistent h → wiring_purged X h h' → consistent h'.
Proof.
  intros Hh [A1 A2 A3 A4 A5].
  split.
  - intros c q. rewrite A1, A5, list_elem_of_filter. intros [_ Hc].
    by apply (made_out h Hh c q).
  - intros c q. rewrite A2, A5, list_elem_of_filter. intros [_ Hc].
    by apply (made_in h Hh c q).
  - intros c k. rewrite A3, A5, list_elem_of_filter. intros [_ Hc].
    by apply (made_circuit h Hh c k).
  - intros c. rewrite A4, A5. apply (complete h Hh).
  - intros c q. rewrite A1. etrans; [apply occ_filter_le|apply (out_once h Hh)].
  - intros c q. rewrite A2. etrans; [apply occ_filter_le|apply (in_once h Hh)].
  - intros c q. rewrite A1, A4, list_elem_of_filter. intros [_ Hc].
    by apply (out_source h Hh).
  - intros c q. rewrite A2, A4, list_elem_of_filter. intros [_ Hc].
    by apply (in_target h Hh).
  - intros c k. rewrite A3, A4, list_elem_of_filter. intros [_ Hc].
    by apply (live_circuit h Hh).
  - intros c k s. rewrite A3, A4, A1, !list_elem_of_filter. intros [Hx Hc] Hs.
    split; [done|]. by apply (live_out h Hh c k).
  - intros c k s. rewrite A3, A4, A2, !list_elem_of_filter. intros [Hx Hc] Hs.
    split; [done|]. by apply (live_in h Hh c k).
Qed.

Lemma wiring_purged_sound X h h' :
  static h h' → wiring_purged X h h' → sound h → sound h'.
Proof.
  intros Hst [_ _ A3 A4 _] Hs c k. rewrite A3, list_elem_of_filter. intros [_ Hc].
  destruct (Hs c k Hc) as (s & t & d & E1 & E2 & Hne & D1 & D2 & Hsrc).
  exists s, t, d. rewrite A4, !(static_domain _ _ Hst), (static_domains _ _ Hst).
  repeat split; try done. intros Hc'. by apply (static_is_source h), Hsrc.
Qed.

Lemma wiring_purged_single_out X h h' :
  static h h' → wiring_purged X h h' → single_out h → single_out h'.
Proof.
  intros Hst [A1 _ _ _ _] Hs p d Hext Hd Hc Ho.
  rewrite (static_domain _ _ Hst) in Hd. rewrite (static_domains _ _ Hst) in Hc, Ho.
  assert (Hext0 : is_ext h p = false).
  { destruct (is_ext h p) eqn:E; [|done].
    apply (static_is_ext _ _ Hst) in E. congruence. }
  rewrite A1. etrans; [apply length_filter|]. by apply (Hs p d).
Qed.

(** ** Verified connect *)

Lemma length_sum_0 {A B} (l1 : list A) (l2 : list B) :
  ¬ (0 < length l1 + length l2) → l1 = [] ∧ l2 = [].
Proof. destruct l1, l2; simpl; (done || lia). Qed.

Lemma valid_connection_accepts h p1 p2 r :
  valid_connection h p1 p2 = Ok (Some r) →
  p1 ≠ p2
  ∧ ∃ d, Port.domain (ports h p1) = Some d
      ∧ Port.domain (ports h p2) = Some d
      ∧ (Domain.causal (domains h d) = false → r = (p1, p2))
      ∧ (Domain.causal (domains h d) = true →
         (is_source h p1 = true ∧ is_target h p2 = true ∧ r = (p1, p2)
          ∧ (Domain.one2one (domains h d) = true →
             Port.connections_out (ports h p1) = []
             ∧ Port.connections_in (ports h p1) = []))
         ∨ (is_source h p1 && is_target h p2 = false
            ∧ is_source h p2 = true ∧ is_target h p1 = true ∧ r = (p2, p1)
            ∧ (Domain.one2one (domains h d) = true →
               Port.connections_in (ports h p1) = []
               ∧ Port.connections_out (ports h p2) = []))).
Proof.
  intros Hv.
  assert (Hne : p1 ≠ p2).
  { intros ->. unfold valid_connection in Hv. by rewrite decide_True in Hv. }
  split; [done|].
  assert (Hdom : Port.domain (ports h p1) = Port.domain (ports h p2)).
  { destruct (decide (Port.domain (ports h p1) = Port.domain (ports h p2))) as [|Hd];
      [done|].
    unfold valid_connection in Hv. rewrite decide_False in Hv by done.
    by rewrite decide_True in Hv. }
  destruct (Port.domain (ports h p1)) as [d|] eqn:Hd1.
  2:{ unfold valid_connection in Hv. rewrite decide_False in Hv by done.
      rewrite Hd1, <- Hdom in Hv. rewrite decide_False in Hv by (intros HH; by apply HH).
      done. }
  exists d. split; [done|]. split; [done|]. split.
  - intros Hc. rewrite (valid_connection_non_causal h p1 p2 d) in Hv by done.
    by injection Hv as <-.
  - intros Hc. rewrite (valid_connection_causal h p1 p2 d) in Hv by done.
    destruct (is_source h p1 && is_target h p2) eqn:E1.
    + left. apply andb_true_iff in E1 as [-> ->].
      destruct (Domain.one2one (domains h d)); cbn [andb] in Hv.
      * case_bool_decide as Hlen; [done|]. injection Hv as <-.
        repeat split; try done; by apply length_sum_0 in Hlen as [? ?].
      * injection Hv as <-. repeat split; done.
    + right. destruct (is_source h p2 && is_target h p1) eqn:E2; [|done].
      apply andb_true_iff in E2 as [-> ->]. split; [done|].
      destruct (Domain.one2one (domains h d)); cbn [andb] in Hv.
      * case_bool_decide as Hlen; [done|]. injection Hv as <-.
        repeat split; try done; by apply length_sum_0 in Hlen as [? ?].
      * injection Hv as <-. repeat split; done.
Qed.

Lemma connect_verified_cases k p1 p2 h h' :
  connect k p1 p2 true h = Ok h' →
  (valid_connection h p1 p2 = Ok None ∧ h' = h)
  ∨ ∃ r d s t,
      valid_connection h p1 p2 = Ok (Some r)
      ∧ Port.domain (ports h p1) = Some d
      ∧ (s, t) = (if Domain.causal (domains h d) && negb (is_source h p1)
                  then (p2, p1) else (p1, p2))
      ∧ h' = set_connections k
               (Circuit.connections (circuits (built_Connection s t h).2 k)
                ++ [next_conn h])
               (built_Connection s t h).2.
Proof.
  unfold connect, mbind, res_bind.
  destruct (valid_connection h p1 p2) as [[r|]|] eqn:Hv; cbn [truthy negb]; [| |done].
  2:{ intros [= <-]. by left. }
  destruct (valid_connection_accepts h p1 p2 r Hv) as (_ & d & Hd & _).
  rewrite Hd. cbn [attr].
  destruct (if Domain.causal (domains h d) && negb (is_source h p1)
            then (p2, p1) else (p1, p2)) as [s t] eqn:Est.
  rewrite new_Connection_eq. destruct (Port.domain (ports h s)); [|done].
  destruct (built_Connection s t h) as [c h1] eqn:E.
  intros [= <-]. right. exists r, d, s, t.
  destruct (built_Connection_spec s t h) as (Hc & _).
  rewrite E in *. cbn [fst snd] in *. by subst c.
Qed.

Lemma built_Connection_domains s t h d :
  domains (built_Connection s t h).2 d = domains h d.
Proof.
  unfold built_Connection. cbn [snd].
  rewrite assigned_source_unset by (cbn; by rewrite fn_lookup_insert).
  rewrite set_target_unset by (cbn; by rewrite !fn_lookup_insert).
  done.
Qed.

Lemma store_static k s t h :
  static h (set_connections k
              (Circuit.connections (circuits (built_Connection s t h).2 k)
               ++ [next_conn h])
              (built_Connection s t h).2).
Proof.
  apply static_same_ports.
  - intros d. rewrite set_connections_eq, stamp_domains. cbn [domains upd_circuit].
    apply built_Connection_domains.
  - intros q. rewrite set_connections_ports.
    destruct (built_Connection_spec s t h) as (_ & _ & _ & _ & _ & _ & _ & Hp).
    destruct (Hp q) as (_ & ? & ? & ?). done.
Qed.

Lemma source_and_target_is_ext h p :
  is_source h p = true → is_target h p = true → is_ext h p = true.
Proof.
  unfold is_source, is_target.
  rewrite !orb_true_iff, !andb_true_iff, !bool_decide_eq_true.
  intros [Ho|[_ ?]] [Hi|[_ ?]]; try done. congruence.
Qed.

(** X1: when [valid_connection] accepts a pair whose first port is not
    external, or whose second port is a target, [connect] stores exactly the
    pair [valid_connection] returned: the new connection has that source
    and target, is appended to the circuit's list and is registered with
    both ports. *)
Theorem connect_stores_the_validated_pair h k p1 p2 s t :
  valid_connection h p1 p2 = Ok (Some (s, t)) →
  is_ext h p1 = false ∨ is_target h p2 = true →
  ∃ h',
    connect k p1 p2 true h = Ok h'
    ∧ Connection.source (conns h' (next_conn h)) = Some s
    ∧ Connection.target (conns h' (next_conn h)) = Some t
    ∧ Circuit.connections (circuits h' k) =
        Circuit.connections (circuits h k) ++ [next_conn h]
    ∧ Port.connections_out (ports h' s) =
        Port.connections_out (ports h s) ++ [next_conn h]
    ∧ Port.connections_in (ports h' t) =
        Port.connections_in (ports h t) ++ [next_conn h].
Proof.
  intros Hv Hside.
  destruct (valid_connection_accepts h p1 p2 (s, t) Hv) as (Hne & d & Hd1 & Hd2 & Hnc & Hc).
  assert (Est : (if Domain.causal (domains h d) && negb (is_source h p1)
                 then (p2, p1) else (p1, p2)) = (s, t)).
  { destruct (Domain.causal (domains h d)) eqn:Ec; cbn [andb].
    - destruct (Hc eq_refl) as [(Hs & _ & E & _)|(Hn & Hs2 & Ht1 & E & _)].
      + by rewrite Hs, E.
      + destruct (is_source h p1) eqn:Hs1; cbn [negb]; [|by rewrite E].
        exfalso. cbn [andb] in Hn.
        destruct Hside as [Hext|Ht2]; [|congruence].
        pose proof (source_and_target_is_ext h p1 Hs1 Ht1). congruence.
    - by rewrite (Hnc eq_refl). }
  assert (Hds : Port.domain (ports h s) = Some d).
  { destruct (Domain.causal (domains h d) && negb (is_source h p1));
      injection Est as <- <-; done. }
  unfold connect, mbind, res_bind. rewrite Hv. cbn [truthy negb].
  rewrite Hd1. cbn [attr]. rewrite Est, new_Connection_eq, Hds.
  destruct (built_Connection s t h) as [c h1] eqn:E.
  destruct (connect_store_spec k s t h) as (A & B & C & D & F).
  destruct (built_Connection_spec s t h) as (Hc1 & _).
  rewrite E in A, B, C, D, F, Hc1. cbn [fst snd] in *. subst c.
  eexists. repeat split; done.
Qed.

Lemma connect_stores_the_validated_pair_witness :
  ∃ h',
    connect 0 4 3 true ex_heap = Ok h'
    ∧ Connection.source (conns h' (next_conn ex_heap)) = Some 3
    ∧ Connection.target (conns h' (next_conn ex_heap)) = Some 4
    ∧ Circuit.connections (circuits h' 0) =
        Circuit.connections (circuits ex_heap 0) ++ [next_conn ex_heap]
    ∧ Port.connections_out (ports h' 3) =
        Port.connections_out (ports ex_heap 3) ++ [next_conn ex_heap]
    ∧ Port.connections_in (ports h' 4) =
        Port.connections_in (ports ex_heap 4) ++ [next_conn ex_heap].
Proof.
  apply (connect_stores_the_validated_pair ex_heap 0 4 3 3 4);
    [vm_compute; reflexivity|left; reflexivity].
Defined.

(** X2: in a causal domain, for an external [in] port [p1] (a source and a
    target) and a port [p2] that is a source and not a target, with no
    one-to-one obstacle, [valid_connection(p1, p2)] returns the pair
    oriented from [p2] to [p1] while [connect(p1, p2)] stores the connection
    from [p1] to [p2]. *)
Theorem connect_reverses_the_validated_pair h k p1 p2 d :
  p1 ≠ p2 →
  Port.domain (ports h p1) = Some d →
  Port.domain (ports h p2) = Some d →
  Domain.causal (domains h d) = true →
  is_source h p1 = true → is_target h p1 = true →
  is_source h p2 = true → is_target h p2 = false →
  (Domain.one2one (domains h d) = true →
   Port.connections_in (ports h p1) = [] ∧ Port.connections_out (ports h p2) = []) →
  valid_connection h p1 p2 = Ok (Some (p2, p1))
  ∧ ∃ h',
      connect k p1 p2 true h = Ok h'
      ∧ Connection.source (conns h' (next_conn h)) = Some p1
      ∧ Connection.target (conns h' (next_conn h)) = Some p2.
Proof.
  intros Hne Hd1 Hd2 Hc Hs1 Ht1 Hs2 Ht2 Hfree.
  assert (Hv : valid_connection h p1 p2 = Ok (Some (p2, p1))).
  { rewrite (valid_connection_causal h p1 p2 d) by done.
    rewrite Hs1, Ht1, Hs2, Ht2. cbn [andb].
    destruct (Domain.one2one (domains h d)); [|done].
    destruct (Hfree eq_refl) as [-> ->]. done. }
  split; [done|].
  unfold connect, mbind, res_bind. rewrite Hv. cbn [truthy negb].
  rewrite Hd1. cbn [attr]. rewrite Hc, Hs1. cbn [andb negb].
  rewrite new_Connection_eq, Hd1.
  destruct (built_Connection p1 p2 h) as [c h1] eqn:E.
  destruct (connect_store_spec k p1 p2 h) as (A & B & _).
  destruct (built_Connection_spec p1 p2 h) as (Hc1 & _).
  rewrite E in A, B, Hc1. cbn [fst snd] in *. subst c.
  eexists. repeat split; done.
Qed.

Lemma connect_reverses_the_validated_pair_witness :
  valid_connection ex_heap 0 3 = Ok (Some (3, 0))
  ∧ ∃ h',
      connect 0 0 3 true ex_heap = Ok h'
      ∧ Connection.source (conns h' (next_conn ex_heap)) = Some 0
      ∧ Connection.target (conns h' (next_conn ex_heap)) = Some 3.
Proof.
  apply (connect_reverses_the_validated_pair ex_heap 0 0 3 0);
    try (vm_compute; reflexivity); [lia|].
  intros _. split; reflexivity.
Defined.

Lemma store_kept k p1 p2 r d s t h :
  kept h →
  valid_connection h p1 p2 = Ok (Some r) →
  Port.domain (ports h p1) = Some d →
  (s, t) = (if Domain.causal (domains h d) && negb (is_source h p1)
            then (p2, p1) else (p1, p2)) →
  kept (set_connections k
          (Circuit.connections (circuits (built_Connection s t h).2 k)
           ++ [next_conn h])
          (built_Connection s t h).2).
Proof.
  intros (Hh & Hs & Ho) Hv Hd1 Est.
  destruct (valid_connection_accepts h p1 p2 r Hv) as (Hne & d' & Hd1' & Hd2 & Hnc & Hc).
  assert (d' = d) as -> by congruence.
  pose proof (store_static k s t h) as Hst.
  assert (Hfk : next_conn h ∉ Circuit.connections (circuits h k)).
  { intros Hx. apply (made_circuit h Hh) in Hx. lia. }
  destruct (store_spec k s t h Hfk) as (Hn & Hk & Hcs & Hout & Hin).
  set (c := next_conn h) in *.
  set (h' := set_connections _ _ _) in *.
  assert (Hst_or : (s, t) = (p1, p2) ∨ (s, t) = (p2, p1)).
  { destruct (_ && _) in Est; auto. }
  assert (Hsne : s ≠ t).
  { destruct Hst_or as [[= -> ->]|[= -> ->]]; congruence. }
  assert (Hds : Port.domain (ports h s) = Some d ∧ Port.domain (ports h t) = Some d).
  { destruct Hst_or as [[= -> ->]|[= -> ->]]; done. }
  assert (Hsrc : Domain.causal (domains h d) = true → is_source h s = true).
  { intros Ec. rewrite Ec in Est. cbn [andb] in Est.
    destruct (is_source h p1) eqn:Hs1; cbn [negb] in Est; injection Est as -> ->; [done|].
    destruct (Hc Ec) as [(Hs1' & _)|(_ & Hs2 & _)]; congruence. }
  assert (Hfree : Domain.causal (domains h d) = true →
                  Domain.one2one (domains h d) = true →
                  is_ext h s = false → Port.connections_out (ports h s) = []).
  { intros Ec Eo Hext. rewrite Ec in Est. cbn [andb] in Est.
    destruct (Hc Ec) as [(Hs1 & _ & _ & Hf)|(_ & Hs2 & Ht1 & _ & Hf)].
    - rewrite Hs1 in Est. injection Est as -> ->. by destruct (Hf Eo).
    - destruct (is_source h p1) eqn:Hs1; cbn [negb] in Est; injection Est as -> ->.
      + pose proof (source_and_target_is_ext h p1 Hs1 Ht1). congruence.
      + by destruct (Hf Eo). }
  split; [by apply store_consistent|]. split.
  - intros c' k'. rewrite Hk. intros Hc'.
    assert (Hcase : (c' = c ∧ k' = k)
                    ∨ (c' ≠ c ∧ c' ∈ Circuit.connections (circuits h k'))).
    { case_decide; subst.
      - apply elem_of_app in Hc' as [Hx|Hx%list_elem_of_singleton]; [|by left].
        right. split; [|done]. intros ->. done.
      - right. split; [|done]. intros ->. apply (made_circuit h Hh) in Hc'.
        unfold c in Hc'. lia. }
    destruct Hcase as [[-> ->]|[Hne' Hold]].
    + exists s, t, d. rewrite Hcs, decide_True by done.
      rewrite !(static_domain _ _ Hst), (static_domains _ _ Hst).
      destruct Hds. repeat split; try done.
      intros Ec. by apply (static_is_source h), Hsrc.
    + destruct (Hs c' k' Hold) as (s' & t' & d0 & E1 & E2 & Hne0 & D1 & D2 & Hsrc0).
      exists s', t', d0. rewrite Hcs, decide_False by done.
      rewrite !(static_domain _ _ Hst), (static_domains _ _ Hst).
      repeat split; try done.
      intros Ec. by apply (static_is_source h), Hsrc0.
  - intros p d0 Hext Hd Ec Eo.
    rewrite (static_domain _ _ Hst) in Hd. rewrite (static_domains _ _ Hst) in Ec, Eo.
    assert (Hext0 : is_ext h p = false).
    { destruct (is_ext h p) eqn:E; [|done].
      apply (static_is_ext _ _ Hst) in E. congruence. }
    rewrite Hout. case_decide; subst.
    + destruct Hds as [Hds _]. assert (d0 = d) as -> by congruence.
      rewrite (Hfree Ec Eo Hext0). simpl. lia.
    + by apply (Ho p d0).
Qed.

Lemma connect_verified_kept k p1 p2 h h' :
  kept h → connect k p1 p2 true h = Ok h' → kept h'.
Proof.
  intros Hk Hc.
  apply connect_verified_cases in Hc as [[_ ->]|(r & d & s & t & Hv & Hd & Est & ->)];
    [done|].
  by eapply store_kept.
Qed.

Lemma purged_kept X h h' :
  static h h' → wiring_purged X h h' → kept h → kept h'.
Proof.
  intros Hst Hw (Hh & Hs & Ho). split; [|split].
  - by eapply wiring_purged_consistent.
  - by eapply wiring_purged_sound.
  - by eapply wiring_purged_single_out.
Qed.

(** ** The effect of the other operations *)

Lemma select_effect k e h :
  static h (select k e h) ∧ wiring_purged [] h (select k e h).
Proof.
  split.
  - by apply static_same_ports.
  - apply wiring_purged_refl; try done.
    intros k'. unfold select. rewrite circuits_upd_circuit. by case_decide; subst.
Qed.

Lemma remove_effect c h h' :
  consistent h → c < next_conn h → remove c h = Ok h' →
  static h h' ∧ wiring_purged [c] h h'.
Proof.
  intros Hh Hc Hr. destruct (remove_purges h c Hh Hc) as (h'' & Hr' & Hp).
  rewrite Hr in Hr'. injection Hr' as <-.
  split; [by eapply purged_static|by apply purged_wiring].
Qed.

Lemma remove_each_effect ccs h h' :
  consistent h → (∀ cc, cc ∈ ccs → cc < next_conn h) →
  remove_each ccs h = Ok h' →
  purged ccs h h'.
Proof.
  intros Hh Hlt Hr. destruct (remove_each_purges ccs h Hh Hlt) as (h'' & Hr' & Hp).
  rewrite Hr in Hr'. by injection Hr' as <-.
Qed.

Lemma set_component_instances_effect k new h h' :
  set_component_instances k new h = Ok h' →
  static h h' ∧ wiring_purged [] h h'
  ∧ (∀ i, ComponentInstance.ports (insts h' i) = ComponentInstance.ports (insts h i)).
Proof.
  unfold set_component_instances. case_bool_decide; [|done]. intros [= <-].
  set (h0 := upd_circuit _ k h).
  destruct (adopt_wiring k new h0) as (Wp & Wc & Wk & Wn & Wd & _).
  split; [|split].
  - apply static_same_ports; intros; by rewrite ?Wd, ?Wp.
  - apply wiring_purged_refl; intros; rewrite ?Wp, ?Wc, ?Wk, ?Wn; try done.
    unfold h0. rewrite circuits_upd_circuit. by case_decide; subst.
  - intros i. by rewrite (proj1 (adopt_insts k new h0 i)).
Qed.

Lemma reparent_spec o new h :
  let h' := foldl (λ h p, upd_port (Port.with_parent o) p h) h new in
  domains h' = domains h ∧ conns h' = conns h ∧ circuits h' = circuits h
  ∧ insts h' = insts h ∧ next_conn h' = next_conn h
  ∧ (∀ q, Port.name (ports h' q) = Port.name (ports h q)
          ∧ Port.domain (ports h' q) = Port.domain (ports h q)
          ∧ Port.direction (ports h' q) = Port.direction (ports h q)
          ∧ Port.connections_in (ports h' q) = Port.connections_in (ports h q)
          ∧ Port.connections_out (ports h' q) = Port.connections_out (ports h q)
          ∧ Port.parent (ports h' q) = if decide (q ∈ new) then o
                                       else Port.parent (ports h q)).
Proof.
  revert h. induction new as [|p new IH]; intros h.
  { cbn. repeat split; try done. }
  cbn [foldl]. cbn zeta in IH.
  destruct (IH (upd_port (Port.with_parent o) p h)) as (-> & -> & -> & -> & -> & Hq).
  do 5 (split; [done|]). intros q.
  destruct (Hq q) as (-> & -> & -> & -> & -> & ->).
  rewrite ports_upd_port.
  do 5 (split; [by case_decide; subst|]).
  destruct (decide (q ∈ new)) as [Hin|Hin].
  - rewrite decide_True; [done|]. by right.
  - destruct (decide (p = q)) as [->|Hne].
    + rewrite decide_True; [done|]. left.
    + rewrite decide_False; [done|]. intros [?|?]%elem_of_cons; congruence.
Qed.

Lemma set_circuit_ports_effect k new h h' :
  set_circuit_ports k new h = Ok h' →
  static h h' ∧ wiring_purged [] h h'
  ∧ (∀ q, Port.connections_in (ports h' q) = Port.connections_in (ports h q)
          ∧ Port.connections_out (ports h' q) = Port.connections_out (ports h q))
  ∧ Circuit.ports (circuits h' k) = new
  ∧ Circuit.selected_element (circuits h' k) = Circuit.selected_element (circuits h k)
  ∧ (∀ k', Circuit.connections (circuits h' k') = Circuit.connections (circuits h k')).
Proof.
  unfold set_circuit_ports. case_decide as Hsame.
  { intros [= <-]. split; [apply static_refl|].
    split; [by apply wiring_purged_refl|]. done. }
  case_bool_decide; [|done]. intros [= <-].
  set (h1 := upd_circuit _ k h).
  destruct (reparent_spec (Some (OT (CK k))) new h1) as (Hd & Hc & Hk & _ & Hn & Hq).
  cbn zeta in Hd, Hc, Hk, Hn, Hq.
  assert (Hkc : ∀ k', Circuit.connections
      (circuits (foldl (λ h p, upd_port (Port.with_parent (Some (OT (CK k)))) p h) h1 new) k')
      = Circuit.connections (circuits h k')).
  { intros k'. rewrite Hk. unfold h1. rewrite circuits_upd_circuit.
    by case_decide; subst. }
  split; [|split; [|split; [|split; [|split]]]].
  - split; intros.
    + by rewrite Hd.
    + by destruct (Hq q) as (_ & -> & _).
    + by destruct (Hq q) as (_ & _ & -> & _).
    + revert H0. unfold is_ext. destruct (Hq q) as (_ & _ & _ & _ & _ & ->).
      case_decide; done.
  - apply wiring_purged_refl.
    + intros q. by destruct (Hq q) as (_ & _ & _ & _ & -> & _).
    + intros q. by destruct (Hq q) as (_ & _ & _ & -> & _).
    + exact Hkc.
    + intros c. by rewrite Hc.
    + done.
  - intros q. by destruct (Hq q) as (_ & _ & _ & -> & -> & _).
  - rewrite Hk. unfold h1. by rewrite circuits_upd_circuit, decide_True.
  - rewrite Hk. unfold h1. by rewrite circuits_upd_circuit, decide_True.
  - done.
Qed.

Lemma effect_trans X Y h h1 h2 :
  static h h1 ∧ wiring_purged X h h1 →
  static h1 h2 ∧ wiring_purged Y h1 h2 →
  static h h2 ∧ wiring_purged (X ++ Y) h h2.
Proof.
  intros [? ?] [? ?]. split; [by eapply static_trans|by eapply wiring_purged_trans].
Qed.

Lemma kept_effect X h h' :
  kept h → static h h' ∧ wiring_purged X h h' → kept h'.
Proof. intros Hk [Hs Hw]. by eapply purged_kept. Qed.

Lemma delete_selected_component_effect k h h' :
  consistent h → delete_selected_component k h = Ok h' →
  ∃ X, static h h' ∧ wiring_purged X h h'.
Proof.
  intros Hh. unfold delete_selected_component, delete_selected_component_states.
  assert (Hid : ∃ X, static h h ∧ wiring_purged X h h).
  { exists []. split; [apply static_refl|by apply wiring_purged_refl]. }
  destruct (Circuit.selected_element (circuits h k)) as [[| |[|c]]|];
    try (by intros [= <-]).
  destruct (negb _); [by intros [= <-]|].
  unfold mbind, res_bind.
  destruct (set_component_instances k _ h) as [h1|] eqn:E1; [|done].
  destruct (set_component_instances_effect _ _ _ _ E1) as (S1 & W1 & _).
  pose proof (wiring_purged_consistent _ _ _ Hh W1) as Hh1.
  destruct (remove_port_connections_purges (ComponentInstance.ports (insts h1 c)) h1 Hh1)
    as (X & h2 & E2 & Hp & _).
  rewrite E2. cbn [last default]. intros [= <-].
  exists (([] ++ X) ++ []).
  apply (effect_trans _ _ h h2); [|apply select_effect].
  apply (effect_trans _ _ h h1); [done|].
  split; [by eapply purged_static|by apply purged_wiring].
Qed.

Lemma delete_selected_port_effect k h h' :
  consistent h → delete_selected_port k h = Ok h' →
  ∃ X, static h h' ∧ wiring_purged X h h'.
Proof.
  intros Hh. unfold delete_selected_port.
  destruct (Circuit.selected_element (circuits h k)) as [[p| |]|];
    try (intros [= <-]; exists []; split; [apply static_refl|by apply wiring_purged_refl]).
  destruct (negb _);
    [intros [= <-]; exists []; split; [apply static_refl|by apply wiring_purged_refl]|].
  unfold mbind, res_bind.
  destruct (set_circuit_ports k _ h) as [h1|] eqn:E1; [|done].
  destruct (set_circuit_ports_effect _ _ _ _ E1) as (S1 & W1 & _).
  pose proof (wiring_purged_consistent _ _ _ Hh W1) as Hh1.
  destruct (remove_each _ h1) as [h2|] eqn:E2; [|done].
  intros [= <-].
  apply remove_each_effect in E2; [|done|].
  2:{ intros cc [Hx|Hx]%elem_of_app;
        [by apply (made_in h1 Hh1 cc p)|by apply (made_out h1 Hh1 cc p)]. }
  eexists (([] ++ _) ++ []).
  apply (effect_trans _ _ h h2); [|apply select_effect].
  apply (effect_trans _ _ h h1); [done|].
  split; [by eapply purged_static|by apply purged_wiring].
Qed.

Lemma move_selected_port_up_effect k h h' :
  move_selected_port_up k h = Ok h' → static h h' ∧ wiring_purged [] h h'.
Proof.
  unfold move_selected_port_up.
  destruct (Circuit.selected_element (circuits h k)) as [[p| |]|];
    try (intros [= <-]; split; [apply static_refl|by apply wiring_purged_refl]).
  destruct (negb _);
    [intros [= <-]; split; [apply static_refl|by apply wiring_purged_refl]|].
  intros E. by destruct (set_circuit_ports_effect _ _ _ _ E) as (? & ? & _).
Qed.

Lemma move_selected_port_down_effect k h h' :
  move_selected_port_down k h = Ok h' → static h h' ∧ wiring_purged [] h h'.
Proof.
  unfold move_selected_port_down.
  destruct (Circuit.selected_element (circuits h k)) as [[p| |]|];
    try (intros [= <-]; split; [apply static_refl|by apply wiring_purged_refl]).
  destruct (negb _);
    [intros [= <-]; split; [apply static_refl|by apply wiring_purged_refl]|].
  intros E. by destruct (set_circuit_ports_effect _ _ _ _ E) as (? & ? & _).
Qed.

Lemma handle_element_msg_kept k element m h h' :
  kept h →
  (∀ c, element = OConn c → c < next_conn h) →
  handle_element_msg k element m h = Ok h' → kept h'.
Proof.
  intros Hk Hconn.
  assert (Hsel : ∀ e, kept (select k e h)).
  { intros e. apply (kept_effect [] h); [done|apply select_effect]. }
  destruct element as [p|c|[[t|k']|c]]; cbn [handle_element_msg].
  - unfold port_msg. destruct m; try (by intros [= <-]).
    destruct (Circuit.selected_element (circuits h k)) as [[se| |]|];
      try (intros [= <-]; apply Hsel).
    case_decide; [intros [= <-]; apply Hsel|].
    unfold mbind, res_bind.
    destruct (valid_connection h se p) as [[r|]|]; cbn [truthy]; [| |done].
    + by apply connect_verified_kept.
    + intros [= <-]. apply Hsel.
  - unfold connection_msg. destruct m; try (by intros [= <-]).
    case_decide; [|intros [= <-]; apply Hsel].
    unfold mbind, res_bind. destruct (remove c h) as [h1|] eqn:Er; [|done].
    intros [= <-]. destruct Hk as (Hh & Hs & Ho).
    apply (kept_effect ([c] ++ []) h); [done|].
    apply (effect_trans _ _ h h1); [|apply select_effect].
    apply remove_effect; auto.
  - by intros [= <-].
  - case_decide; [|by intros [= <-]].
    unfold msg. destruct m; try (by intros [= <-]).
    destruct (Circuit.selected_element (circuits h k)); intros [= <-]; [apply Hsel|done].
  - unfold component_msg. destruct m; try (by intros [= <-]).
    case_decide; intros [= <-]; [done|apply Hsel].
Qed.

Lemma unconnected_kept h : unconnected h → kept h.
Proof.
  intros Hu. split; [by apply unconnected_consistent|].
  destruct Hu as (_ & Hp & Hk). split.
  - intros c k. rewrite Hk. by intros ?%elem_of_nil.
  - intros p d _ _ _ _. rewrite (proj2 (Hp p)). simpl. lia.
Qed.

Lemma operated_kept h : operated h → kept h.
Proof.
  induction 1 as [h Hu|h k p1 p2 h' _ IH Hc|h c h' _ IH Hc Hr
                  |h k e m h' _ IH Hc Hm|h k h' _ IH Hd|h k h' _ IH Hd
                  |h k h' _ IH Hd|h k h' _ IH Hd].
  - by apply unconnected_kept.
  - by eapply connect_verified_kept.
  - apply (kept_effect [c] h); [done|]. apply remove_effect; [apply IH|done..].
  - by eapply handle_element_msg_kept.
  - destruct (delete_selected_component_effect k h h') as (X & HX); [apply IH|done|].
    by eapply kept_effect.
  - destruct (delete_selected_port_effect k h h') as (X & HX); [apply IH|done|].
    by eapply kept_effect.
  - eapply kept_effect; [done|]. by eapply move_selected_port_up_effect.
  - eapply kept_effect; [done|]. by eapply move_selected_port_down_effect.
Qed.

Lemma ex_clicked_operated : operated ex_clicked.
Proof.
  apply (op_msg (run (handle_element_msg 0 (OPort 3) Click ex_heap)) 0 (OPort 4) Click);
    [|done|vm_compute; reflexivity].
  apply (op_msg ex_heap 0 (OPort 3) Click);
    [apply op_init, ex_heap_unconnected|done|vm_compute; reflexivity].
Qed.

(** X3: the bookkeeping invariant holds in every heap the editor leads to
    (verified connects, removals, front-end messages, the builder's delete
    and move buttons): a connection of a circuit's list occurs exactly once
    in the [connections_out] of its source, exactly once in the
    [connections_in] of its target, and in no other adjacency list. *)
Theorem editor_keeps_connections_in_their_endpoints h c k :
  operated h →
  c ∈ Circuit.connections (circuits h k) →
  ∃ s t,
    Connection.source (conns h c) = Some s
    ∧ Connection.target (conns h c) = Some t
    ∧ Connection.circuit (conns h c) = Some k
    ∧ (∀ q, occ c (Port.connections_out (ports h q)) = if decide (q = s) then 1 else 0)
    ∧ (∀ q, occ c (Port.connections_in (ports h q)) = if decide (q = t) then 1 else 0).
Proof.
  intros Ho Hl. destruct (operated_kept h Ho) as (Hh & _).
  destruct (consistent_live h c k Hh Hl) as (s & t & E & Hout & Hin).
  exists s, t. rewrite E. done.
Qed.

Lemma editor_keeps_connections_in_their_endpoints_witness :
  ∃ s t,
    Connection.source (conns ex_clicked 0) = Some s
    ∧ Connection.target (conns ex_clicked 0) = Some t
    ∧ Connection.circuit (conns ex_clicked 0) = Some 0
    ∧ (∀ q, occ 0 (Port.connections_out (ports ex_clicked q))
            = if decide (q = s) then 1 else 0)
    ∧ (∀ q, occ 0 (Port.connections_in (ports ex_clicked q))
            = if decide (q = t) then 1 else 0).
Proof.
  apply (editor_keeps_connections_in_their_endpoints _ 0 0 ex_clicked_operated).
  vm_compute. left.
Defined.

(** X4: every connection the editor makes joins two distinct ports of one
    domain, and in a causal domain it starts at a port that qualifies as a
    source. *)
Theorem editor_connections_join_one_domain h c k :
  operated h →
  c ∈ Circuit.connections (circuits h k) →
  ∃ s t d,
    Connection.source (conns h c) = Some s
    ∧ Connection.target (conns h c) = Some t
    ∧ s ≠ t
    ∧ Port.domain (ports h s) = Some d
    ∧ Port.domain (ports h t) = Some d
    ∧ (Domain.causal (domains h d) = true → is_source h s = true).
Proof. intros Ho Hl. destruct (operated_kept h Ho) as (_ & Hs & _). by apply (Hs c k). Qed.

Lemma editor_connections_join_one_domain_witness :
  ∃ s t d,
    Connection.source (conns ex_clicked 0) = Some s
    ∧ Connection.target (conns ex_clicked 0) = Some t
    ∧ s ≠ t
    ∧ Port.domain (ports ex_clicked s) = Some d
    ∧ Port.domain (ports ex_clicked t) = Some d
    ∧ (Domain.causal (domains ex_clicked d) = true → is_source ex_clicked s = true).
Proof.
  apply (editor_connections_join_one_domain _ 0 0 ex_clicked_operated).
  vm_compute. left.
Defined.

(** X5: in a causal one-to-one domain, a port that is not external never
    gets a second outgoing connection from the editor's operations. *)
Theorem editor_one2one_single_outgoing h p d :
  operated h →
  is_ext h p = false →
  Port.domain (ports h p) = Some d →
  Domain.causal (domains h d) = true →
  Domain.one2one (domains h d) = true →
  length (Port.connections_out (ports h p)) ≤ 1.
Proof. intros Ho. destruct (operated_kept h Ho) as (_ & _ & Hs). apply Hs. Qed.

Lemma editor_one2one_single_outgoing_witness :
  Port.connections_out (ports ex_clicked 3) = [0]
  ∧ length (Port.connections_out (ports ex_clicked 3)) ≤ 1.
Proof.
  split; [vm_compute; reflexivity|].
  apply (editor_one2one_single_outgoing ex_clicked 3 0 ex_clicked_operated);
    vm_compute; reflexivity.
Defined.

(** X6: a click on a connection of the circuit that is not selected selects
    it and changes nothing else of the wiring; a second click removes it
    from the circuit's list and from the adjacency lists of all ports, and
    clears the selection. *)
Theorem click_twice_removes_connection h k c :
  operated h →
  c ∈ Circuit.connections (circuits h k) →
  Circuit.selected_element (circuits h k) ≠ Some (OConn c) →
  ∃ h1 h2,
    handle_element_msg k (OConn c) Click h = Ok h1
    ∧ Circuit.selected_element (circuits h1 k) = Some (OConn c)
    ∧ (∀ k', Circuit.connections (circuits h1 k') = Circuit.connections (circuits h k'))
    ∧ (∀ q, ports h1 q = ports h q)
    ∧ handle_element_msg k (OConn c) Click h1 = Ok h2
    ∧ Circuit.selected_element (circuits h2 k) = None
    ∧ Circuit.connections (circuits h2 k) =
        remove_self c (Circuit.connections (circuits h k))
    ∧ (∀ k', c ∉ Circuit.connections (circuits h2 k'))
    ∧ (∀ q, (c ∉ Port.connections_out (ports h2 q))
            ∧ (c ∉ Port.connections_in (ports h2 q))).
Proof.
  intros Ho Hl Hsel. destruct (operated_kept h Ho) as (Hh & _).
  set (h1 := select k (Some (OConn c)) h).
  destruct (select_effect k (Some (OConn c)) h) as [_ W1]. fold h1 in W1.
  pose proof (wiring_purged_consistent _ _ _ Hh W1) as Hh1.
  assert (Hk1 : ∀ k', Circuit.connections (circuits h1 k')
                      = Circuit.connections (circuits h k')).
  { intros k'. unfold h1, select. rewrite circuits_upd_circuit. by case_decide; subst. }
  assert (Hc1 : c < next_conn h1) by (by apply (made_circuit h Hh c k)).
  destruct (remove_purges h1 c Hh1 Hc1) as (h2 & Hr & Hp).
  exists h1, (select k None h2).
  assert (Hs1 : Circuit.selected_element (circuits h1 k) = Some (OConn c)).
  { unfold h1, select. by rewrite circuits_upd_circuit, decide_True. }
  split.
  { change (connection_msg k c Click h = Ok h1). unfold connection_msg.
    by rewrite decide_False. }
  split; [done|]. split; [done|]. split; [done|].
  split.
  { change (connection_msg k c Click h1 = Ok (select k None h2)).
    unfold connection_msg. rewrite decide_True by done.
    unfold mbind, res_bind. by rewrite Hr. }
  split. { unfold select. by rewrite circuits_upd_circuit, decide_True. }
  assert (Hk2 : ∀ k', Circuit.connections (circuits (select k None h2) k')
                      = remove_self c (Circuit.connections (circuits h k'))).
  { intros k'. unfold select. rewrite circuits_upd_circuit.
    rewrite remove_self_as_filter, <- Hk1, <- (purged_circuit _ _ _ Hp).
    by case_decide; subst. }
  split; [apply Hk2|]. split.
  - intros k'. rewrite Hk2, elem_of_remove_self. tauto.
  - intros q. cbn [select upd_circuit ports].
    rewrite (purged_out _ _ _ Hp), (purged_in _ _ _ Hp), !list_elem_of_filter,
      list_elem_of_singleton. tauto.
Qed.

Lemma click_twice_removes_connection_witness :
  ∃ h1 h2,
    handle_element_msg 0 (OConn 0) Click ex_clicked = Ok h1
    ∧ Circuit.selected_element (circuits h1 0) = Some (OConn 0)
    ∧ handle_element_msg 0 (OConn 0) Click h1 = Ok h2
    ∧ Circuit.selected_element (circuits h2 0) = None
    ∧ Circuit.connections (circuits h2 0) = [].
Proof.
  destruct (click_twice_removes_connection ex_clicked 0 0 ex_clicked_operated)
    as (h1 & h2 & E1 & S1 & _ & _ & E2 & S2 & Hk & _).
  { vm_compute. left. }
  { vm_compute. discriminate. }
  exists h1, h2. do 4 (split; [assumption|]). rewrite Hk. vm_compute. reflexivity.
Defined.

(** ** CircuitBuilder: moving and deleting external ports *)


Lemma index_of_Some p ps i :
  index_of p ps = Some i →
  ∃ l1 l2, ps = l1 ++ p :: l2 ∧ length l1 = i ∧ p ∉ l1.
Proof.
  revert i. induction ps as [|a ps IH]; intros i; cbn [index_of]; [done|].
  case_decide as Ha.
  - intros [= <-]. subst a. exists [], ps. split; [done|]. split; [done|].
    apply not_elem_of_nil.
  - destruct (index_of p ps) as [j|]; [|done]. cbn. intros [= <-].
    destruct (IH j eq_refl) as (l1 & l2 & -> & <- & Hp).
    exists (a :: l1), l2. split; [done|]. split; [done|].
    intros [?|?]%elem_of_cons; congruence.
Qed.

Lemma index_of_elem p ps : p ∈ ps → ∃ i, index_of p ps = Some i.
Proof.
  induction ps as [|a ps IH]; [by intros ?%elem_of_nil|].
  intros Hp. cbn [index_of]. case_decide; [by eexists|].
  apply elem_of_cons in Hp as [->|Hp]; [done|].
  destruct (IH Hp) as (i & ->). by eexists.
Qed.

















(** * Serialization *)

(** The chain circuit comes back with the representation it went in with,
    in either order of iteration of the sets and of assignment of the
    keyword arguments of [Port]. *)
Lemma round_trip_chain :
  (∃ r, round_trip (λ _ l, l) true (ex_chain true) = Ok (r, r))
  ∧ (∃ r, round_trip (λ _ l, reverse l) true (ex_chain true) = Ok (r, r))
  ∧ (∃ r, round_trip (λ _ l, l) false (ex_chain false) = Ok (r, r))
  ∧ (∃ r, round_trip (λ _ l, reverse l) false (ex_chain false) = Ok (r, r)).
Proof. repeat apply conj; eexists; vm_compute; reflexivity. Qed.


